(** * cozmo_fsm/worldmap.py: the world map of a Cozmo robot

    A shallow embedding of [worldmap.py] and the properties of its
    coordinate fusion ([update_coords]), of its wall inference
    ([infer_wall]) and of the wall catalog ([WallSpec]).

    Conventions of the embedding.
    - Python numbers that hold lengths and angles are read as real numbers
      ([R]); [/] is true division.  Identifiers are integers ([Z]).
    - A Python [dict] whose iteration order cannot be observed is a [gmap];
      one whose order decides a result ([landmarks], [light_cubes], the
      local [seen_markers]) is an association list in insertion order.
    - SDK objects are mutable and shared: they live in a store indexed by
      handles, and the world map keeps handles, not copies.
    - Methods of [WorldMap] run in a state-and-exception monad over
      [self.objects]; [WallSpec.__init__] runs in the same monad over the
      global [wall_marker_dict]. *)

From Stdlib Require Import Reals Lra ZArith List.
From stdpp Require Import base option list gmap.

Local Open Scope R_scope.

(** ** Exceptions and the state monad *)

Inductive exn : Type :=
| AttributeError
| IndexError
| KeyError
| TypeError
| ValueError.

Inductive result (A : Type) : Type :=
| Ok (a : A)
| Raise (e : exn).

Arguments Ok {A} a.
Arguments Raise {A} e.

Definition M (S A : Type) : Type := S -> result A * S.

Definition ret {S A} (a : A) : M S A := fun s => (Ok a, s).

Definition raise {S A} (e : exn) : M S A := fun s => (Raise e, s).

Definition bind {S A B} (c : M S A) (k : A -> M S B) : M S B :=
  fun s =>
    match c s with
    | (Ok a, s') => k a s'
    | (Raise e, s') => (Raise e, s')
    end.

Definition get {S} : M S S := fun s => (Ok s, s).

Definition modify {S} (f : S -> S) : M S unit := fun s => (Ok tt, f s).

Definition lift {S A} (v : result A) : M S A := fun s => (v, s).

#[global] Instance M_ret {S} : MRet (M S) := fun A => @ret S A.
#[global] Instance M_bind {S} : MBind (M S) := fun A B k c => @bind S A B c k.

(** [for x in l: body x] *)
Fixpoint for_each {S A} (l : list A) (body : A -> M S unit) : M S unit :=
  match l with
  | [] => ret tt
  | a :: l' => bind (body a) (fun _ => for_each l' body)
  end.

(** ** Angles *)

(** Modelled from the spec: [wrap_angle] of [cozmo_fsm/transform.py], which
    [worldmap.py] imports and which is not part of the sources at hand.  The
    spec asks for the one normalisation "wrap to (-pi, pi]": the
    representative of the angle modulo [2*PI] that lies in that interval. *)
Definition wrap_angle (angle_rads : R) : R :=
  angle_rads + 2 * PI * IZR (up ((PI - angle_rads) / (2 * PI)) - 1).

(** The data model's notion of a normalised heading. *)
Definition normalized (theta : R) : Prop := - PI < theta <= PI.

(** ** The SDK objects the map reads *)

Abbreviation handle := positive.

(** What [isinstance(obj, LightCube)] and [isinstance(obj, CustomObject)]
    can tell about an SDK object. *)
Inductive sdk_class : Type :=
| LightCube
| CustomObject
| OtherObject.

(** [cozmo.util.Pose]: [position.x_y_z], [rotation.angle_z.radians] and the
    origin the pose is expressed in. *)
Record Pose : Type := mkPose {
  pos_x : R;
  pos_y : R;
  pos_z : R;
  angle_z : R;
  origin_id : Z
}.

(** An observable SDK object.  [pose] is [None] until the object is seen. *)
Record SdkObject : Type := mkSdkObject {
  sdk_class_of : sdk_class;
  pose : option Pose;
  is_visible : bool;
  object_type : Z
}.

(** A landmark estimate of the particle filter's sensor model:
    [(mu, orient, sigma)], with [mu[0,0]] and [mu[1,0]] the mean position. *)
Record Landmark : Type := mkLandmark {
  mu_x : R;
  mu_y : R;
  orient : R;
  sigma : list (list R)
}.

(** [self.robot], as far as the map reads it. *)
Record Robot : Type := mkRobot {
  robot_pose : Pose;                       (* robot.pose *)
  particle_filter_pose : R * R * R;        (* robot.world.particle_filter.pose *)
  landmarks : list (Z * Landmark);         (* ...sensor_model.landmarks *)
  light_cubes : list (Z * handle);         (* robot.world.light_cubes *)
  sdk_objects : handle -> SdkObject        (* the objects behind the handles *)
}.

(** ** World objects *)

(** What an [id] attribute can hold. *)
Inductive ident : Type :=
| IdNone
| IdInt (n : Z)
| IdObjectType (t : Z)
| IdCustomObject (x_size_mm y_size_mm z_size_mm : R).

(** The attributes a subclass adds to [WorldObject]. *)
Inductive attrs : Type :=
| PlainAttrs
| WallAttrs (length height door_width door_height : R)
| LightCubeAttrs (sdk_obj : handle) (size : R * R * R)
| CustomCubeAttrs (sdk_obj : handle) (size : R * R * R)
| ChipAttrs (radius thickness : R).

Module WorldObject.
(** [theta] is an attribute of some subclasses only: [None] when the
    object has none. *)
Record t : Type := mk {
  id : ident;
  x : R;
  y : R;
  z : R;
  obstacle : bool;
  is_visible : bool;
  theta : option R;
  more : attrs
}.
End WorldObject.

Definition WorldObject_init (id : ident) (x y z : R) (is_visible : bool)
  : WorldObject.t :=
  WorldObject.mk id x y z true is_visible None PlainAttrs.

Definition WallObj (id : ident) (x y theta length height door_width door_height : R)
  : WorldObject.t :=
  let self := WorldObject_init id x y 0 false in
  WorldObject.mk (WorldObject.id self) (WorldObject.x self) (WorldObject.y self)
    (height / 2) (WorldObject.obstacle self) (WorldObject.is_visible self)
    (Some theta) (WallAttrs length height door_width door_height).

Definition light_cube_size : R * R * R := (44, 44, 44).

Definition LightCubeObj (sdk : handle -> SdkObject) (sdk_obj : handle)
    (id : ident) (x y z theta : R) : WorldObject.t :=
  let self := WorldObject_init id x y z false in
  WorldObject.mk (WorldObject.id self) (WorldObject.x self) (WorldObject.y self)
    (WorldObject.z self) (WorldObject.obstacle self)
    (is_visible (sdk sdk_obj))
    (Some theta) (LightCubeAttrs sdk_obj light_cube_size).

Definition CustomCubeObj (sdk : handle -> SdkObject) (sdk_obj : handle)
    (id : ident) (x y z theta : R) (size : option (R * R * R)) : WorldObject.t :=
  let self := WorldObject_init id x y z false in
  let size' :=
    match size, id with
    | None, IdCustomObject xs ys zs => (xs, ys, zs)
    | Some s, _ => s
    | None, _ => (50, 50, 50)
    end in
  WorldObject.mk (WorldObject.id self) (WorldObject.x self) (WorldObject.y self)
    (WorldObject.z self) (WorldObject.obstacle self)
    (is_visible (sdk sdk_obj))
    (Some theta) (CustomCubeAttrs sdk_obj size').

Definition ChipObj (id : ident) (x y z radius thickness : R) : WorldObject.t :=
  let self := WorldObject_init id x y 0 false in
  WorldObject.mk (WorldObject.id self) (WorldObject.x self) (WorldObject.y self)
    (WorldObject.z self) (WorldObject.obstacle self) (WorldObject.is_visible self)
    None (ChipAttrs radius thickness).

(** A value of [self.objects]: a world object, or Python's [None]. *)
Inductive stored : Type :=
| PyNone
| PyObj (o : WorldObject.t).

(** Keys of [self.objects]: wall identifiers and SDK objects. *)
Abbreviation key := (Z + handle)%type.
Abbreviation Objects := (gmap key stored).

(** ** The wall specification and the global catalog *)

Module WallSpec.
(** A marker of a wall: [markers[m_id]] is a pair whose second component
    is a sequence; its first element is the marker's offset along the
    wall.  The first component is not read here. *)
Record t : Type := mk {
  length : R;
  height : R;
  door_width : R;
  door_height : R;
  markers : gmap Z (Z * list R);
  doorways : list (R * R);
  id : Z
}.
End WallSpec.

(** The global [wall_marker_dict]. *)
Abbreviation Catalog := (gmap Z WallSpec.t).

(** [min(ids)]: raises [ValueError] on an empty list. *)
Definition py_min (ids : list Z) : result Z :=
  match ids with
  | [] => Raise ValueError
  | i :: rest => Ok (fold_left Z.min rest i)
  end.

(** [WallSpec.__init__]; [markers.keys()] in the order the dict gives. *)
Definition WallSpec_init (length height door_width door_height : R)
    (markers : gmap Z (Z * list R)) (doorways : list (R * R))
  : M Catalog WallSpec.t :=
  (let ids := (map_to_list markers).*1 in
   id ← lift (py_min ids);
   let self :=
     WallSpec.mk length height door_width door_height markers doorways id in
   for_each ids (fun id => modify (<[id := self]>));;
   ret self).

(** Every marker id of the catalog is a marker of the spec it maps to. *)
Definition markers_registered (cat : Catalog) : Prop :=
  forall k ws, cat !! k = Some ws -> is_Some (WallSpec.markers ws !! k).

(** ** The world map *)

(** The SDK's operations on poses: [p.is_comparable(q)] and [p - q]. *)
Class PoseOps : Type := {
  is_comparable : Pose -> Pose -> bool;
  pose_sub : Pose -> Pose -> Pose
}.

(** [WorldMap.vision_z_fudge] *)
Definition vision_z_fudge : R := 10.

(** The default of [WallObj]'s parameter [door_width]. *)
Definition WallObj_default_door_width : R := 75.

(** [seq[0]] *)
Definition index0 {A} (seq : list A) : result A :=
  match seq with
  | [] => Raise IndexError
  | a :: _ => Ok a
  end.

(** [d.get(k, None)] and [d[k] = v] on a dict kept in insertion order. *)
Fixpoint alist_get {A} (k : Z) (d : list (Z * A)) : option A :=
  match d with
  | [] => None
  | (k', v) :: d' => if decide (k' = k) then Some v else alist_get k d'
  end.

Fixpoint alist_set {A} (k : Z) (v : A) (d : list (Z * A)) : list (Z * A) :=
  match d with
  | [] => [(k, v)]
  | (k', v') :: d' =>
      if decide (k' = k) then (k, v) :: d' else (k', v') :: alist_set k v d'
  end.

(** [infer_wall]: the loop returns at the first marker that has a catalog
    entry; a loop that ends returns [None]. *)
Fixpoint infer_wall (wall_marker_dict : Catalog) (id : Z)
    (markers : list (Z * Landmark)) : result stored :=
  match markers with
  | [] => Ok PyNone
  | (m_id, m_spec) :: rest =>
      match wall_marker_dict !! m_id with
      | None => infer_wall wall_marker_dict id rest
      | Some wall_spec =>
          let m_x := mu_x m_spec in
          let m_y := mu_y m_spec in
          match WallSpec.markers wall_spec !! m_id with
          | None => Raise KeyError
          | Some (_, coords) =>
              match index0 coords with
              | Raise e => Raise e
              | Ok along =>
                  let dist := WallSpec.length wall_spec / 2 - along in
                  let wall_orient := orient m_spec in
                  let wall_x := m_x + dist * cos (wall_orient - PI / 2) in
                  let wall_y := m_y + dist * sin (wall_orient - PI / 2) in
                  Ok (PyObj (WallObj (IdInt (WallSpec.id wall_spec))
                               wall_x wall_y wall_orient
                               (WallSpec.length wall_spec)
                               (WallSpec.height wall_spec)
                               WallObj_default_door_width
                               (WallSpec.door_height wall_spec)))
              end
          end
      end
  end.

(** The first loop of [generate_walls_from_markers]. *)
Definition distribute_markers (wall_marker_dict : Catalog)
    (landmarks : list (Z * Landmark)) : list (Z * list (Z * Landmark)) :=
  fold_left
    (fun seen_markers '(id, spec) =>
       match wall_marker_dict !! id with
       | None => seen_markers
       | Some wall_spec =>
           let wall_id := WallSpec.id wall_spec in
           let markers := default [] (alist_get wall_id seen_markers) in
           alist_set wall_id (markers ++ [(id, spec)]) seen_markers
       end)
    landmarks [].

Definition generate_walls_from_markers (wall_marker_dict : Catalog)
    (r : Robot) : M Objects unit :=
  (let seen_markers := distribute_markers wall_marker_dict (landmarks r) in
   for_each seen_markers
     (fun '(id, markers) =>
        wall ← lift (infer_wall wall_marker_dict id markers);
        modify (<[inl id := wall]>))).

Section WorldMap.
Context `{ops : PoseOps}.

(** The local [orient_diff] of [update_coords]. *)
Definition orient_diff (r : Robot) : R :=
  let '(_, _, rob_theta) := particle_filter_pose r in
  wrap_angle (rob_theta - angle_z (robot_pose r)).

(** [update_coords] assigns five attributes of [world_obj]; the result is
    the object after the assignments. *)
Definition update_coords (r : Robot) (world_obj : stored) (sdk_obj : handle)
  : result WorldObject.t :=
  match pose (sdk_objects r sdk_obj) with
  | None => Raise TypeError
  | Some p =>
      let diff := pose_sub p (robot_pose r) in
      let dx := pos_x diff in
      let dy := pos_y diff in
      let '(rob_x, rob_y, _) := particle_filter_pose r in
      let osin := sin (orient_diff r) in
      let ocos := cos (orient_diff r) in
      let wx := dx * ocos + dy * osin in
      let wy := dx * - osin + dy * ocos in
      match world_obj with
      | PyNone => Raise AttributeError
      | PyObj o =>
          Ok (WorldObject.mk
                (WorldObject.id o)
                (rob_x + wx)
                (rob_y + wy)
                (pos_z p + vision_z_fudge)
                (WorldObject.obstacle o)
                (is_visible (sdk_objects r sdk_obj))
                (Some (wrap_angle (angle_z p + orient_diff r)))
                (WorldObject.more o))
      end
  end.

(** The keys of [light_cubes] whose value is [cube], in dict order. *)
Definition keys_of (cube : handle) (items : list (Z * handle)) : list Z :=
  (filter (fun kv => kv.2 = cube) items).*1.

(** In [update_cube] and [update_custom_object] the name [world_obj] is
    bound to the object stored under the handle, so the assignments of
    [update_coords] are seen through [self.objects]: the updated object
    is written back under that key. *)
Definition update_cube (r : Robot) (cube : handle) : M Objects unit :=
  match pose (sdk_objects r cube) with
  | None => ret tt
  | Some p =>
      if negb (is_comparable p (robot_pose r)) then ret tt
      else
        (objects ← get;
         world_obj ←
           match objects !! inr cube with
           | Some world_obj => ret world_obj
           | None =>
               id ← lift (index0 (keys_of cube (light_cubes r)));
               let world_obj :=
                 PyObj (LightCubeObj (sdk_objects r) cube (IdInt id) 0 0 0 0) in
               modify (<[inr cube := world_obj]>);;
               ret world_obj
           end;
         world_obj' ← lift (update_coords r world_obj cube);
         modify (<[inr cube := PyObj world_obj']>))
  end.

Definition update_custom_object (r : Robot) (sdk_obj : handle)
  : M Objects unit :=
  match pose (sdk_objects r sdk_obj) with
  | None => raise AttributeError
  | Some p =>
      if negb (is_comparable p (robot_pose r)) then ret tt
      else
        (objects ← get;
         world_obj ←
           match objects !! inr sdk_obj with
           | Some world_obj => ret world_obj
           | None =>
               let id := IdObjectType (object_type (sdk_objects r sdk_obj)) in
               let world_obj :=
                 PyObj (CustomCubeObj (sdk_objects r) sdk_obj id 0 0 0 0 None) in
               modify (<[inr sdk_obj := world_obj]>);;
               ret world_obj
           end;
         world_obj' ← lift (update_coords r world_obj sdk_obj);
         modify (<[inr sdk_obj := PyObj world_obj']>))
  end.

Definition update_map (wall_marker_dict : Catalog) (r : Robot)
  : M Objects unit :=
  (generate_walls_from_markers wall_marker_dict r;;
   for_each (light_cubes r) (fun '(id, cube) => update_cube r cube)).

(** [evt.obj] is the handle the event carries. *)
Definition handle_object_observed (r : Robot) (evt_obj : handle)
  : M Objects unit :=
  match sdk_class_of (sdk_objects r evt_obj) with
  | LightCube => update_cube r evt_obj
  | CustomObject => update_custom_object r evt_obj
  | OtherObject => ret tt
  end.

End WorldMap.

(** One implementation of the SDK's interface, for concrete runs: two poses
    are comparable when they are expressed in the same origin, and their
    difference is taken coordinate by coordinate. *)
Definition same_origin_ops : PoseOps := {|
  is_comparable p q := bool_decide (origin_id p = origin_id q);
  pose_sub p q :=
    mkPose (pos_x p - pos_x q) (pos_y p - pos_y q) (pos_z p - pos_z q)
           (angle_z p - angle_z q) (origin_id p)
|}.

(** ** The heading invariant of the data model *)

Definition heading_ok (v : stored) : Prop :=
  match v with
  | PyNone => True
  | PyObj o =>
      match WorldObject.theta o with
      | None => True
      | Some theta => normalized theta
      end
  end.

Definition headings_normalized (objects : Objects) : Prop :=
  forall k v, objects !! k = Some v -> heading_ok v.

(** ** Concrete configurations *)

(** [WallSpec(length=200, door_width=90, markers={7: (1, (20, 50))})]: a
    wall of length 200 with a door of width 90, and marker 7 at offset 20
    along it. *)
Definition wall_7_markers : gmap Z (Z * list R) :=
  {[ 7%Z := (1%Z, [20; 50]) ]}.

Definition wall_7 : WallSpec.t :=
  WallSpec.mk 200 210 90 105 wall_7_markers [] 7.

Definition wall_7_catalog : Catalog := <[ 7%Z := wall_7 ]> ∅.

(** A second, longer wall that claims the same marker. *)
Definition wall_7_again : WallSpec.t :=
  WallSpec.mk 300 210 75 105 wall_7_markers [] 7.

(** Marker 7 seen at (10, 0): once facing along the x axis, once with an
    orientation of 5 radians; and a marker 3 that no wall has. *)
Definition marker_7_seen : Landmark := mkLandmark 10 0 0 [].
Definition marker_7_turned : Landmark := mkLandmark 10 0 5 [].
Definition marker_3_seen : Landmark := mkLandmark 40 40 1 [].

(** Three SDK objects: cube 1, tracked and seen at (130, 50) with heading
    pi/2; custom object 2, declared but never seen; cube 3, seen but not
    in [light_cubes]. *)
Definition tracked_cube_pose : Pose := mkPose 130 50 0 (PI / 2) 1.
Definition untracked_cube_pose : Pose := mkPose 120 60 0 0 1.

Definition scene_objects (h : handle) : SdkObject :=
  match h with
  | 1%positive => mkSdkObject LightCube (Some tracked_cube_pose) true 0
  | 2%positive => mkSdkObject CustomObject None false 0
  | _ => mkSdkObject LightCube (Some untracked_cube_pose) true 0
  end.

(** An agent at world pose (100, 50, heading 0) whose raw heading is 0. *)
Definition scene : Robot :=
  mkRobot (mkPose 100 50 0 0 1) (100, 50, 0)
    [(3%Z, marker_3_seen); (7%Z, marker_7_seen)]
    [(1%Z, 1%positive)]
    scene_objects.

Definition scene_turned : Robot :=
  mkRobot (mkPose 100 50 0 0 1) (100, 50, 0)
    [(7%Z, marker_7_turned)]
    [(1%Z, 1%positive)]
    scene_objects.

(** Cube 1 as [update_cube] creates it on a first sighting. *)
Definition new_cube_1 : WorldObject.t :=
  LightCubeObj scene_objects 1 (IdInt 1) 0 0 0 0.

(** ** Auxiliary notions used in the proofs *)

(** What one call of [update_cube] does to the entry stored under the cube,
    as a function of that entry alone: [Ok None] leaves the map as it is,
    [Ok (Some v)] stores [v] under the cube. *)
Definition cube_entry `{PoseOps} (r : Robot) (cube : handle)
    (entry : option stored) : result (option stored) :=
  match pose (sdk_objects r cube) with
  | None => Ok None
  | Some p =>
      if negb (is_comparable p (robot_pose r)) then Ok None
      else
        match entry with
        | Some world_obj =>
            match update_coords r world_obj cube with
            | Ok o' => Ok (Some (PyObj o'))
            | Raise e => Raise e
            end
        | None =>
            match index0 (keys_of cube (light_cubes r)) with
            | Raise e => Raise e
            | Ok id =>
                match update_coords r
                        (PyObj (LightCubeObj (sdk_objects r) cube (IdInt id) 0 0 0 0))
                        cube with
                | Ok o' => Ok (Some (PyObj o'))
                | Raise e => Raise e
                end
            end
        end
  end.

Definition write_entry (cube : handle) (res : result (option stored))
    (objects : Objects) : result unit * Objects :=
  match res with
  | Ok None => (Ok tt, objects)
  | Ok (Some v) => (Ok tt, <[inr cube := v]> objects)
  | Raise e => (Raise e, objects)
  end.

Ltac run :=
  unfold mbind, M_bind, mret, M_ret, bind, ret, lift, modify, get, raise.

(** ** Further notions used in the properties *)

(** The wall a marker belongs to, according to the catalog. *)
Definition wall_id_of (wall_marker_dict : Catalog) (m_id : Z) : option Z :=
  WallSpec.id <$> wall_marker_dict !! m_id.

(** The landmarks of one wall, in the order of the landmark table. *)
Definition group_of (wall_marker_dict : Catalog) (wall_id : Z)
    (landmarks : list (Z * Landmark)) : list (Z * Landmark) :=
  filter (fun m => wall_id_of wall_marker_dict m.1 = Some wall_id) landmarks.

(** One turn of the first loop of [generate_walls_from_markers]. *)
Definition distribute_step (wall_marker_dict : Catalog)
    (seen_markers : list (Z * list (Z * Landmark))) (lm : Z * Landmark)
  : list (Z * list (Z * Landmark)) :=
  match wall_marker_dict !! lm.1 with
  | None => seen_markers
  | Some wall_spec =>
      let wall_id := WallSpec.id wall_spec in
      let markers := default [] (alist_get wall_id seen_markers) in
      alist_set wall_id (markers ++ [lm]) seen_markers
  end.

(** Every marker id of the catalog has, in the spec it maps to, an entry
    with an offset along the wall. *)
Definition offsets_present (cat : Catalog) : Prop :=
  forall k ws,
    cat !! k = Some ws ->
    exists side along more, WallSpec.markers ws !! k = Some (side, along :: more).

(** The SDK object a world object refers to, when it has such a reference. *)
Definition backref (o : WorldObject.t) : option handle :=
  match WorldObject.more o with
  | LightCubeAttrs sdk_obj _ => Some sdk_obj
  | CustomCubeAttrs sdk_obj _ => Some sdk_obj
  | _ => None
  end.

(** Every object stored under an SDK object refers back to it. *)
Definition backrefs_consistent (objects : Objects) : Prop :=
  forall h o, objects !! (inr h : key) = Some (PyObj o) -> backref o = Some h.

(** The scene with a fourth SDK object: a custom object of type 6, seen at
    (80, 50, 12). *)
Definition custom_object_pose : Pose := mkPose 80 50 12 0 1.

Definition gallery_objects (h : handle) : SdkObject :=
  match h with
  | 4%positive => mkSdkObject CustomObject (Some custom_object_pose) true 6
  | _ => scene_objects h
  end.

Definition gallery : Robot :=
  mkRobot (mkPose 100 50 0 0 1) (100, 50, 0)
    [(3%Z, marker_3_seen); (7%Z, marker_7_seen)]
    [(1%Z, 1%positive)]
    gallery_objects.

(** A wall whose only marker, 9, was declared without coordinates. *)
Definition bare_markers : gmap Z (Z * list R) := {[ 9%Z := (1%Z, []) ]}.

Definition bare_wall : WallSpec.t :=
  WallSpec.mk 100 210 75 105 bare_markers [] 9.

Definition bare_catalog : Catalog := <[ 9%Z := bare_wall ]> ∅.

(** A map that already holds cube 3, which [light_cubes] does not track. *)
Definition old_cube_3 : WorldObject.t :=
  LightCubeObj scene_objects 3 (IdInt 5) 0 0 0 0.

Definition map_with_cube_3 : Objects := <[ inr 3%positive := PyObj old_cube_3 ]> ∅.

(** * Properties *)

(** ** Angle normalisation *)

Lemma wrap_angle_range (a : R) : normalized (wrap_angle a).
Proof.
  unfold normalized, wrap_angle.
  pose proof PI_RGT_0 as Hpi.
  destruct (archimed ((PI - a) / (2 * PI))) as [Hlo Hhi].
  rewrite minus_IZR.
  set (u := IZR (up ((PI - a) / (2 * PI)))) in *.
  assert (Hs : (PI - a) / (2 * PI) * (2 * PI) = PI - a) by (field; lra).
  split.
  - assert (H : (PI - a) / (2 * PI) * (2 * PI) < u * (2 * PI)).
    { apply Rmult_lt_compat_r; lra. }
    lra.
  - assert (H : (u - (PI - a) / (2 * PI)) * (2 * PI) <= 1 * (2 * PI)).
    { apply Rmult_le_compat_r; lra. }
    lra.
Qed.

Lemma wrap_angle_normalized (a : R) : normalized a -> wrap_angle a = a.
Proof.
  unfold normalized, wrap_angle. intros [Hlo Hhi].
  pose proof PI_RGT_0 as Hpi.
  assert (Hup : up ((PI - a) / (2 * PI)) = 1%Z).
  { symmetry. apply tech_up.
    - apply Rmult_lt_reg_r with (2 * PI); [lra|].
      replace ((PI - a) / (2 * PI) * (2 * PI)) with (PI - a) by (field; lra).
      lra.
    - apply Rmult_le_reg_r with (2 * PI); [lra|].
      replace (((PI - a) / (2 * PI) + 1) * (2 * PI)) with (PI - a + 2 * PI)
        by (field; lra).
      lra. }
  rewrite Hup. change (1 - 1)%Z with 0%Z. lra.
Qed.

Lemma wrap_angle_idempotent (a : R) : wrap_angle (wrap_angle a) = wrap_angle a.
Proof. apply wrap_angle_normalized, wrap_angle_range. Qed.

Lemma wrap_angle_0 : wrap_angle 0 = 0.
Proof.
  apply wrap_angle_normalized. unfold normalized.
  pose proof PI_RGT_0. lra.
Qed.

(** ** Coordinate fusion *)

Section Fusion.
Context `{ops : PoseOps}.

(** Equal heading estimates give a null discrepancy. *)
Lemma orient_diff_same_heading (r : Robot) :
  (particle_filter_pose r).2 = angle_z (robot_pose r) -> orient_diff r = 0.
Proof.
  unfold orient_diff. destruct (particle_filter_pose r) as [[rob_x rob_y] rob_theta].
  simpl. intros ->. rewrite Rminus_diag. apply wrap_angle_0.
Qed.

(** [update_coords] on an object and a handle that has a pose: the five
    assigned attributes, the others kept. *)
Lemma update_coords_fields (r : Robot) (o : WorldObject.t) (sdk_obj : handle)
    (p : Pose) :
  pose (sdk_objects r sdk_obj) = Some p ->
  exists o',
    update_coords r (PyObj o) sdk_obj = Ok o' /\
    WorldObject.x o' =
      (particle_filter_pose r).1.1
      + (pos_x (pose_sub p (robot_pose r)) * cos (orient_diff r)
         + pos_y (pose_sub p (robot_pose r)) * sin (orient_diff r)) /\
    WorldObject.y o' =
      (particle_filter_pose r).1.2
      + (pos_x (pose_sub p (robot_pose r)) * - sin (orient_diff r)
         + pos_y (pose_sub p (robot_pose r)) * cos (orient_diff r)) /\
    WorldObject.z o' = pos_z p + vision_z_fudge /\
    WorldObject.theta o' = Some (wrap_angle (angle_z p + orient_diff r)) /\
    WorldObject.is_visible o' = is_visible (sdk_objects r sdk_obj) /\
    WorldObject.id o' = WorldObject.id o /\
    WorldObject.obstacle o' = WorldObject.obstacle o /\
    WorldObject.more o' = WorldObject.more o.
Proof.
  intros Hp. unfold update_coords. rewrite Hp.
  destruct (particle_filter_pose r) as [[rob_x rob_y] rob_theta].
  eexists. split; [reflexivity|]. simpl. repeat split; reflexivity.
Qed.

(** C1. When the discrepancy [orient_diff] between the agent's best
    heading and its raw heading is null, [update_coords] places the entity
    at the agent's world position plus the raw displacement [(dx, dy)]
    and gives it the detection's heading: the heading stored is
    [wrap_angle] of the detection's, which is the detection's heading
    itself as soon as that one is a normalised angle, as the headings of
    the data model are.  In particular an agent at (100, 50) with
    both headings 0 that detects a cube at displacement (30, 0) with
    heading pi/2 places it at (130, 50) with heading pi/2. *)
Theorem update_coords_null_discrepancy :
  (forall (r : Robot) (o : WorldObject.t) (sdk_obj : handle) (p : Pose),
      pose (sdk_objects r sdk_obj) = Some p ->
      orient_diff r = 0 ->
      exists o',
        update_coords r (PyObj o) sdk_obj = Ok o' /\
        WorldObject.x o' =
          (particle_filter_pose r).1.1 + pos_x (pose_sub p (robot_pose r)) /\
        WorldObject.y o' =
          (particle_filter_pose r).1.2 + pos_y (pose_sub p (robot_pose r)) /\
        WorldObject.theta o' = Some (wrap_angle (angle_z p)) /\
        (normalized (angle_z p) -> WorldObject.theta o' = Some (angle_z p)))
  /\
  (forall (r : Robot) (o : WorldObject.t) (sdk_obj : handle) (p : Pose),
      pose (sdk_objects r sdk_obj) = Some p ->
      particle_filter_pose r = (100, 50, 0) ->
      angle_z (robot_pose r) = 0 ->
      pos_x (pose_sub p (robot_pose r)) = 30 ->
      pos_y (pose_sub p (robot_pose r)) = 0 ->
      angle_z p = PI / 2 ->
      exists o',
        update_coords r (PyObj o) sdk_obj = Ok o' /\
        WorldObject.x o' = 130 /\
        WorldObject.y o' = 50 /\
        WorldObject.theta o' = Some (PI / 2)).
Proof.
  assert (General :
    forall (r : Robot) (o : WorldObject.t) (sdk_obj : handle) (p : Pose),
      pose (sdk_objects r sdk_obj) = Some p ->
      orient_diff r = 0 ->
      exists o',
        update_coords r (PyObj o) sdk_obj = Ok o' /\
        WorldObject.x o' =
          (particle_filter_pose r).1.1 + pos_x (pose_sub p (robot_pose r)) /\
        WorldObject.y o' =
          (particle_filter_pose r).1.2 + pos_y (pose_sub p (robot_pose r)) /\
        WorldObject.theta o' = Some (wrap_angle (angle_z p)) /\
        (normalized (angle_z p) -> WorldObject.theta o' = Some (angle_z p))).
  { intros r o sdk_obj p Hp Hdiff.
    destruct (update_coords_fields r o sdk_obj p Hp)
      as (o' & Hrun & Hx & Hy & _ & Hth & _).
    exists o'. rewrite Hdiff, sin_0, cos_0 in Hx, Hy.
    rewrite Hdiff, Rplus_0_r in Hth.
    split; [exact Hrun|]. split; [rewrite Hx; lra|].
    split; [rewrite Hy; lra|]. split; [exact Hth|].
    intros Hnorm. rewrite Hth, wrap_angle_normalized by exact Hnorm.
    reflexivity. }
  split; [exact General|].
  intros r o sdk_obj p Hp Hpf Hraw Hdx Hdy Hth.
  destruct (General r o sdk_obj p Hp) as (o' & Hrun & Hx & Hy & _ & Ht).
  { apply orient_diff_same_heading. rewrite Hpf, Hraw. reflexivity. }
  exists o'. rewrite Hpf, Hdx in Hx. rewrite Hpf, Hdy in Hy. simpl in Hx, Hy.
  split; [exact Hrun|]. split; [rewrite Hx; lra|].
  split; [rewrite Hy; lra|]. rewrite Ht, Hth; [reflexivity|].
  rewrite Hth. unfold normalized. pose proof PI_RGT_0. lra.
Qed.

(** C3. The world [z] that [update_coords] assigns is the detection's [z]
    plus the constant [vision_z_fudge] = 10, whatever the agent's pose and
    the heading discrepancy. *)
Theorem update_coords_z_bias (r : Robot) (o : WorldObject.t)
    (sdk_obj : handle) (p : Pose) :
  pose (sdk_objects r sdk_obj) = Some p ->
  exists o',
    update_coords r (PyObj o) sdk_obj = Ok o' /\
    WorldObject.z o' = pos_z p + 10.
Proof.
  intros Hp.
  destruct (update_coords_fields r o sdk_obj p Hp) as (o' & Hrun & _ & _ & Hz & _).
  exists o'. split; [exact Hrun|exact Hz].
Qed.

End Fusion.

(** ** The wall catalog *)

Lemma for_each_insert {V} (ids : list Z) (v : V) (cat : gmap Z V) :
  for_each ids (fun id => modify (<[id := v]>)) cat
  = (Ok tt, foldl (fun c id => <[id := v]> c) cat ids).
Proof.
  revert cat. induction ids as [|i ids IH]; intros cat; simpl.
  - reflexivity.
  - run. simpl. apply IH.
Qed.

Lemma lookup_foldl_insert {V} (ids : list Z) (v : V) (cat : gmap Z V) (k : Z) :
  foldl (fun c id => <[id := v]> c) cat ids !! k
  = if decide (k ∈ ids) then Some v else cat !! k.
Proof.
  revert cat. induction ids as [|i ids IH]; intros cat; simpl.
  - destruct (decide (k ∈ [])) as [Hin|_]; [inversion Hin|reflexivity].
  - rewrite IH. destruct (decide (k ∈ ids)) as [Hin|Hnin].
    + rewrite decide_True; [reflexivity|by right].
    + destruct (decide (k = i)) as [->|Hne].
      * rewrite lookup_insert_eq. rewrite decide_True; [reflexivity|by left].
      * rewrite lookup_insert_ne by congruence.
        rewrite decide_False; [reflexivity|].
        intros Hin. apply elem_of_cons in Hin. tauto.
Qed.

Lemma fold_min_le (l : list Z) (a : Z) :
  (fold_left Z.min l a <= a)%Z /\ Forall (fun i => (fold_left Z.min l a <= i)%Z) l.
Proof.
  revert a. induction l as [|i l IH]; intros a; simpl.
  - split; [lia|constructor].
  - destruct (IH (Z.min a i)) as [Hle Hall]. split; [lia|].
    constructor; [lia|exact Hall].
Qed.

Lemma fold_min_in (l : list Z) (a : Z) : fold_left Z.min l a ∈ a :: l.
Proof.
  revert a. induction l as [|i l IH]; intros a; simpl.
  - by left.
  - specialize (IH (Z.min a i)). apply elem_of_cons in IH as [Heq|Hin].
    + rewrite Heq. destruct (Z.min_spec a i) as [[_ ->]|[_ ->]].
      * by left.
      * right; by left.
    + right; by right.
Qed.

Lemma py_min_spec (ids : list Z) :
  ids <> [] ->
  exists m, py_min ids = Ok m /\ m ∈ ids /\ Forall (fun i => (m <= i)%Z) ids.
Proof.
  destruct ids as [|i rest]; [congruence|]. intros _.
  exists (fold_left Z.min rest i). split; [reflexivity|].
  destruct (fold_min_le rest i) as [Hle Hall].
  split; [apply fold_min_in|]. constructor; assumption.
Qed.

Lemma elem_of_marker_ids {V} (markers : gmap Z V) (k : Z) :
  k ∈ (map_to_list markers).*1 <-> is_Some (markers !! k).
Proof.
  rewrite list_elem_of_fmap. split.
  - intros ([k' v] & -> & Hin). apply elem_of_map_to_list in Hin. by exists v.
  - intros [v Hv]. exists (k, v). split; [reflexivity|].
    by apply elem_of_map_to_list.
Qed.

(** What a construction with at least one marker does. *)
Lemma WallSpec_init_run (length height door_width door_height : R)
    (markers : gmap Z (Z * list R)) (doorways : list (R * R)) (cat : Catalog) :
  markers <> ∅ ->
  exists id cat',
    let self :=
      WallSpec.mk length height door_width door_height markers doorways id in
    WallSpec_init length height door_width door_height markers doorways cat
      = (Ok self, cat') /\
    is_Some (markers !! id) /\
    (forall k, is_Some (markers !! k) -> (id <= k)%Z) /\
    (forall k, is_Some (markers !! k) -> cat' !! k = Some self) /\
    (forall k, markers !! k = None -> cat' !! k = cat !! k).
Proof.
  intros Hne.
  assert (Hids : (map_to_list markers).*1 <> []).
  { intros Hnil. apply fmap_nil_inv in Hnil.
    apply map_to_list_empty_iff in Hnil. contradiction. }
  destruct (py_min_spec _ Hids) as (m & Hmin & Hin & Hall).
  exists m. eexists. cbn zeta. unfold WallSpec_init, mbind, M_bind, bind, lift. rewrite Hmin.
  rewrite for_each_insert. split; [reflexivity|].
  split; [by apply elem_of_marker_ids|].
  split.
  { intros k Hk. apply elem_of_marker_ids in Hk.
    rewrite Forall_forall in Hall. by apply Hall. }
  split.
  - intros k Hk. rewrite lookup_foldl_insert.
    rewrite decide_True; [reflexivity|by apply elem_of_marker_ids].
  - intros k Hk. rewrite lookup_foldl_insert.
    rewrite decide_False; [reflexivity|].
    intros Hin'. apply elem_of_marker_ids in Hin'. rewrite Hk in Hin'.
    by destruct Hin'.
Qed.

Lemma WallSpec_init_no_markers_run (length height door_width door_height : R)
    (doorways : list (R * R)) (cat : Catalog) :
  WallSpec_init length height door_width door_height ∅ doorways cat
  = (Raise ValueError, cat).
Proof.
  unfold WallSpec_init. rewrite map_to_list_empty. reflexivity.
Qed.

(** C7. Constructing a [WallSpec] with at least one marker succeeds; its
    identifier is the least of its marker ids (markers 5, 2 and 9 give 2);
    the catalog afterwards maps every marker id of the spec to the spec and
    is unchanged elsewhere; and of two constructions the later one owns
    every marker id they share. *)
Theorem WallSpec_init_registers :
  (forall (length height door_width door_height : R)
      (markers : gmap Z (Z * list R)) (doorways : list (R * R)) (cat : Catalog),
      markers <> ∅ ->
      exists self cat',
        WallSpec_init length height door_width door_height markers doorways cat
          = (Ok self, cat') /\
        WallSpec.markers self = markers /\
        is_Some (markers !! WallSpec.id self) /\
        (forall k, is_Some (markers !! k) -> (WallSpec.id self <= k)%Z) /\
        (forall k, is_Some (markers !! k) -> cat' !! k = Some self) /\
        (forall k, markers !! k = None -> cat' !! k = cat !! k))
  /\
  (forall (length height door_width door_height : R)
      (m5 m2 m9 : Z * list R) (doorways : list (R * R)) (cat : Catalog),
      exists self cat',
        WallSpec_init length height door_width door_height
          (<[5%Z := m5]> (<[2%Z := m2]> (<[9%Z := m9]> ∅))) doorways cat
          = (Ok self, cat') /\
        WallSpec.id self = 2%Z)
  /\
  (forall (l1 h1 dw1 dh1 l2 h2 dw2 dh2 : R)
      (markers1 markers2 : gmap Z (Z * list R)) (ds1 ds2 : list (R * R))
      (cat cat1 cat2 : Catalog) (self1 self2 : WallSpec.t) (k : Z),
      WallSpec_init l1 h1 dw1 dh1 markers1 ds1 cat = (Ok self1, cat1) ->
      WallSpec_init l2 h2 dw2 dh2 markers2 ds2 cat1 = (Ok self2, cat2) ->
      is_Some (markers1 !! k) ->
      is_Some (markers2 !! k) ->
      cat1 !! k = Some self1 /\ cat2 !! k = Some self2).
Proof.
  assert (General :
    forall (length height door_width door_height : R)
      (markers : gmap Z (Z * list R)) (doorways : list (R * R)) (cat : Catalog),
      markers <> ∅ ->
      exists self cat',
        WallSpec_init length height door_width door_height markers doorways cat
          = (Ok self, cat') /\
        WallSpec.markers self = markers /\
        is_Some (markers !! WallSpec.id self) /\
        (forall k, is_Some (markers !! k) -> (WallSpec.id self <= k)%Z) /\
        (forall k, is_Some (markers !! k) -> cat' !! k = Some self) /\
        (forall k, markers !! k = None -> cat' !! k = cat !! k)).
  { intros l h dw dh markers ds cat Hne.
    destruct (WallSpec_init_run l h dw dh markers ds cat Hne)
      as (id & cat' & Hrun & Hid & Hmin & Hreg & Hkeep).
    eexists. exists cat'. split; [exact Hrun|]. simpl. auto. }
  assert (Owner :
    forall (l h dw dh : R) (markers : gmap Z (Z * list R)) (ds : list (R * R))
      (cat cat' : Catalog) (self : WallSpec.t) (k : Z),
      WallSpec_init l h dw dh markers ds cat = (Ok self, cat') ->
      is_Some (markers !! k) -> cat' !! k = Some self).
  { intros l h dw dh markers ds cat cat' self k Hrun Hk.
    assert (Hne : markers <> ∅).
    { intros ->. rewrite lookup_empty in Hk. by destruct Hk. }
    destruct (General l h dw dh markers ds cat Hne)
      as (self' & cat'' & Hrun' & _ & _ & _ & Hreg & _).
    rewrite Hrun in Hrun'. injection Hrun' as <- <-. by apply Hreg. }
  split; [exact General|]. split.
  - intros l h dw dh m5 m2 m9 ds cat.
    set (markers := <[5%Z := m5]> (<[2%Z := m2]> (<[9%Z := m9]> ∅))).
    assert (Hne : markers <> ∅) by apply insert_non_empty.
    destruct (General l h dw dh markers ds cat Hne)
      as (self & cat' & Hrun & _ & Hid & Hmin & _).
    exists self, cat'. split; [exact Hrun|].
    assert (H2 : is_Some (markers !! 2%Z)).
    { unfold markers. rewrite lookup_insert_ne by lia.
      rewrite lookup_insert_eq. by eexists. }
    specialize (Hmin _ H2).
    destruct Hid as [v Hv]. unfold markers in Hv.
    apply lookup_insert_Some in Hv as [[Heq _]|[_ Hv]]; [lia|].
    apply lookup_insert_Some in Hv as [[Heq _]|[_ Hv]]; [lia|].
    apply lookup_insert_Some in Hv as [[Heq _]|[_ Hv]]; [lia|].
    rewrite lookup_empty in Hv. discriminate.
  - intros l1 h1 dw1 dh1 l2 h2 dw2 dh2 markers1 markers2 ds1 ds2
      cat cat1 cat2 self1 self2 k Hrun1 Hrun2 Hk1 Hk2.
    split; [eapply Owner; eassumption|eapply Owner; eassumption].
Qed.

(** C8. Constructing a [WallSpec] without markers is rejected: [min] raises
    [ValueError] before the catalog is written, and the catalog is left as
    it was. *)
Theorem WallSpec_init_no_markers (length height door_width door_height : R)
    (doorways : list (R * R)) (cat : Catalog) :
  WallSpec_init length height door_width door_height ∅ doorways cat
  = (Raise ValueError, cat).
Proof. apply WallSpec_init_no_markers_run. Qed.

(** ** Wall inference *)

(** Markers without a catalog entry are skipped. *)
Lemma infer_wall_skip (cat : Catalog) (id : Z)
    (before rest : list (Z * Landmark)) :
  Forall (fun m => cat !! m.1 = None) before ->
  infer_wall cat id (before ++ rest) = infer_wall cat id rest.
Proof.
  induction 1 as [|[m_id m_spec] before Hm _ IH]; simpl.
  - reflexivity.
  - simpl in Hm. rewrite Hm. exact IH.
Qed.

(** The wall built from a marker that has a catalog entry and an offset. *)
Lemma infer_wall_usable (cat : Catalog) (id m_id : Z) (m_spec : Landmark)
    (rest : list (Z * Landmark)) (ws : WallSpec.t) (side : Z) (along : R)
    (more : list R) :
  cat !! m_id = Some ws ->
  WallSpec.markers ws !! m_id = Some (side, along :: more) ->
  infer_wall cat id ((m_id, m_spec) :: rest)
  = Ok (PyObj (WallObj (IdInt (WallSpec.id ws))
                 (mu_x m_spec
                  + (WallSpec.length ws / 2 - along) * cos (orient m_spec - PI / 2))
                 (mu_y m_spec
                  + (WallSpec.length ws / 2 - along) * sin (orient m_spec - PI / 2))
                 (orient m_spec)
                 (WallSpec.length ws) (WallSpec.height ws)
                 WallObj_default_door_width (WallSpec.door_height ws))).
Proof.
  intros Hcat Hm. simpl. rewrite Hcat, Hm. reflexivity.
Qed.

(** C2. [infer_wall] builds the wall from the first marker of the group
    that has a catalog entry: the markers before it (none of which has an
    entry) and all the markers after it do not change the result, and the
    wall's pose is heading = the marker's orientation,
    x = marker_x + offset * cos (heading - pi/2),
    y = marker_y + offset * sin (heading - pi/2), with
    offset = length / 2 - the marker's offset along the wall.  For a spec of
    length 200 whose marker 7 has offset 20, marker 7 seen at (10, 0) with
    orientation 0 gives a wall at (10, -80) with heading 0. *)
Theorem infer_wall_first_usable_marker :
  (forall (cat : Catalog) (id m_id : Z) (m_spec : Landmark)
      (before after : list (Z * Landmark)) (ws : WallSpec.t) (side : Z)
      (along : R) (more : list R),
      Forall (fun m => cat !! m.1 = None) before ->
      cat !! m_id = Some ws ->
      WallSpec.markers ws !! m_id = Some (side, along :: more) ->
      exists wall,
        infer_wall cat id (before ++ (m_id, m_spec) :: after) = Ok (PyObj wall) /\
        infer_wall cat id [(m_id, m_spec)] = Ok (PyObj wall) /\
        WorldObject.theta wall = Some (orient m_spec) /\
        WorldObject.x wall =
          mu_x m_spec
          + (WallSpec.length ws / 2 - along) * cos (orient m_spec - PI / 2) /\
        WorldObject.y wall =
          mu_y m_spec
          + (WallSpec.length ws / 2 - along) * sin (orient m_spec - PI / 2))
  /\
  (forall (cat : Catalog) (id : Z) (m_spec : Landmark)
      (before after : list (Z * Landmark)) (ws : WallSpec.t) (side : Z)
      (more : list R),
      Forall (fun m => cat !! m.1 = None) before ->
      cat !! 7%Z = Some ws ->
      WallSpec.length ws = 200 ->
      WallSpec.markers ws !! 7%Z = Some (side, 20 :: more) ->
      mu_x m_spec = 10 -> mu_y m_spec = 0 -> orient m_spec = 0 ->
      exists wall,
        infer_wall cat id (before ++ (7%Z, m_spec) :: after) = Ok (PyObj wall) /\
        WorldObject.x wall = 10 /\
        WorldObject.y wall = -80 /\
        WorldObject.theta wall = Some 0).
Proof.
  split.
  - intros cat id m_id m_spec before after ws side along more Hbefore Hcat Hm.
    eexists. rewrite infer_wall_skip by exact Hbefore.
    rewrite (infer_wall_usable cat id m_id m_spec after ws side along more Hcat Hm).
    rewrite (infer_wall_usable cat id m_id m_spec [] ws side along more Hcat Hm).
    repeat split; reflexivity.
  - intros cat id m_spec before after ws side more Hbefore Hcat Hlen Hm Hx Hy Ho.
    eexists. rewrite infer_wall_skip by exact Hbefore.
    rewrite (infer_wall_usable cat id 7 m_spec after ws side 20 more Hcat Hm).
    split; [reflexivity|]. simpl. rewrite Hx, Hy, Ho, Hlen.
    replace (0 - PI / 2) with (- (PI / 2)) by lra.
    rewrite cos_neg, sin_neg, cos_PI2, sin_PI2.
    repeat split; [lra|lra].
Qed.

(** The geometry a wall object carries: length, height, door width and
    door height. *)
Lemma infer_wall_geometry (cat : Catalog) (id : Z)
    (markers : list (Z * Landmark)) (wall : WorldObject.t) :
  infer_wall cat id markers = Ok (PyObj wall) ->
  exists ws,
    WorldObject.more wall
    = WallAttrs (WallSpec.length ws) (WallSpec.height ws)
        WallObj_default_door_width (WallSpec.door_height ws).
Proof.
  induction markers as [|[m_id m_spec] rest IH]; simpl; [discriminate|].
  destruct (cat !! m_id) as [ws|]; [|exact IH].
  destruct (WallSpec.markers ws !! m_id) as [[side coords]|]; [|discriminate].
  destruct coords as [|along more]; simpl; [discriminate|].
  intros [= <-]. exists ws. reflexivity.
Qed.

(** Catalogs built by [WallSpec.__init__] alone keep every marker id with a
    spec that has it, so that [infer_wall] finds [markers[m_id]]. *)
Lemma WallSpec_init_markers_registered (length height door_width door_height : R)
    (markers : gmap Z (Z * list R)) (doorways : list (R * R))
    (cat : Catalog) :
  markers_registered cat ->
  markers_registered
    (WallSpec_init length height door_width door_height markers doorways cat).2.
Proof.
  intros Hcat. destruct (decide (markers = ∅)) as [->|Hne].
  { rewrite WallSpec_init_no_markers_run. exact Hcat. }
  destruct (WallSpec_init_run length height door_width door_height markers
              doorways cat Hne) as (id & cat' & Hrun & _ & _ & Hreg & Hkeep).
  cbn zeta in Hrun, Hreg. rewrite Hrun. simpl. intros k ws Hk.
  destruct (markers !! k) as [v|] eqn:Hm.
  - rewrite Hreg in Hk by (by exists v). injection Hk as <-. simpl.
    rewrite Hm. by exists v.
  - rewrite Hkeep in Hk by exact Hm. by apply Hcat.
Qed.

Lemma infer_wall_finds_marker (cat : Catalog) (id : Z)
    (markers : list (Z * Landmark)) :
  markers_registered cat -> infer_wall cat id markers <> Raise KeyError.
Proof.
  intros Hcat. induction markers as [|[m_id m_spec] rest IH]; simpl;
    [discriminate|].
  destruct (cat !! m_id) as [ws|] eqn:Hws; [|exact IH].
  destruct (Hcat _ _ Hws) as [[side coords] Hm]. rewrite Hm.
  destruct coords; simpl; discriminate.
Qed.

(** ** Cube fusion *)

Section CubeFusion.
Context `{ops : PoseOps}.

(** Running [update_coords] on its own result changes nothing. *)
Lemma update_coords_again (r : Robot) (w : stored) (sdk_obj : handle)
    (o' : WorldObject.t) :
  update_coords r w sdk_obj = Ok o' ->
  update_coords r (PyObj o') sdk_obj = Ok o'.
Proof.
  unfold update_coords.
  destruct (pose (sdk_objects r sdk_obj)) as [p|]; [|discriminate].
  destruct (particle_filter_pose r) as [[rob_x rob_y] rob_theta].
  destruct w as [|o]; [discriminate|].
  intros [= <-]. reflexivity.
Qed.

Lemma update_coords_object (r : Robot) (o : WorldObject.t) (sdk_obj : handle)
    (p : Pose) :
  pose (sdk_objects r sdk_obj) = Some p ->
  exists o', update_coords r (PyObj o) sdk_obj = Ok o'.
Proof.
  intros Hp. destruct (update_coords_fields r o sdk_obj p Hp) as (o' & Hrun & _).
  by exists o'.
Qed.

(** [update_cube] reads and writes the entry of its cube only. *)
Lemma update_cube_entry (r : Robot) (cube : handle) (m : Objects) :
  update_cube r cube m
  = write_entry cube (cube_entry r cube (m !! inr cube)) m.
Proof.
  unfold update_cube, cube_entry.
  destruct (pose (sdk_objects r cube)) as [p|] eqn:Hp; [|reflexivity].
  destruct (negb (is_comparable p (robot_pose r))); [reflexivity|].
  run. destruct (m !! inr cube) as [w|] eqn:Hm.
  - destruct (update_coords r w cube) as [o'|e]; reflexivity.
  - destruct (index0 (keys_of cube (light_cubes r))) as [id|e]; [|reflexivity].
    destruct (update_coords_object r
                (LightCubeObj (sdk_objects r) cube (IdInt id) 0 0 0 0) cube p Hp)
      as [o' Ho'].
    rewrite Ho'. simpl. rewrite insert_insert_eq. reflexivity.
Qed.

Lemma cube_entry_again (r : Robot) (cube : handle) (entry : option stored)
    (v : stored) :
  cube_entry r cube entry = Ok (Some v) ->
  cube_entry r cube (Some v) = Ok (Some v).
Proof.
  unfold cube_entry.
  destruct (pose (sdk_objects r cube)) as [p|]; [|discriminate].
  destruct (negb (is_comparable p (robot_pose r))); [discriminate|].
  destruct entry as [w|].
  - destruct (update_coords r w cube) as [o'|e] eqn:Hrun; [|discriminate].
    intros [= <-]. by rewrite (update_coords_again _ _ _ _ Hrun).
  - destruct (index0 (keys_of cube (light_cubes r))) as [id|e]; [|discriminate].
    destruct (update_coords r _ cube) as [o'|e] eqn:Hrun; [|discriminate].
    intros [= <-]. by rewrite (update_coords_again _ _ _ _ Hrun).
Qed.

(** A skip does not depend on the entry. *)
Lemma cube_entry_skip (r : Robot) (cube : handle) (e1 e2 : option stored) :
  cube_entry r cube e1 = Ok None -> cube_entry r cube e2 = Ok None.
Proof.
  unfold cube_entry.
  destruct (pose (sdk_objects r cube)) as [p|]; [|reflexivity].
  destruct (negb (is_comparable p (robot_pose r))); [reflexivity|].
  destruct e1 as [w|].
  - destruct (update_coords r w cube); discriminate.
  - destruct (index0 (keys_of cube (light_cubes r))); [|discriminate].
    destruct (update_coords r _ cube); discriminate.
Qed.

Lemma update_cube_idempotent (r : Robot) (cube : handle) (m : Objects) :
  update_cube r cube (update_cube r cube m).2 = update_cube r cube m.
Proof.
  rewrite (update_cube_entry r cube m).
  destruct (cube_entry r cube (m !! inr cube)) as [[v|]|e] eqn:He; simpl.
  - rewrite update_cube_entry, lookup_insert_eq.
    rewrite (cube_entry_again _ _ _ _ He). simpl.
    by rewrite insert_insert_eq.
  - rewrite update_cube_entry, He. reflexivity.
  - rewrite update_cube_entry, He. reflexivity.
Qed.

(** A map is settled for a cube when [update_cube] succeeds on it and
    leaves it as it is. *)
Lemma update_cube_settles (r : Robot) (cube : handle) (m m' : Objects) :
  update_cube r cube m = (Ok tt, m') ->
  update_cube r cube m' = (Ok tt, m').
Proof.
  intros Hrun. pose proof (update_cube_idempotent r cube m) as Hidem.
  rewrite Hrun in Hidem. exact Hidem.
Qed.

Lemma update_cube_frame (r : Robot) (cube : handle) (m : Objects) (k : key) :
  k <> inr cube -> (update_cube r cube m).2 !! k = m !! k.
Proof.
  intros Hk. rewrite update_cube_entry.
  destruct (cube_entry r cube (m !! inr cube)) as [[v|]|e]; simpl;
    [by rewrite lookup_insert_ne|reflexivity|reflexivity].
Qed.

Lemma settled_stable (r : Robot) (cube other : handle) (m m' : Objects) :
  update_cube r cube m = (Ok tt, m) ->
  update_cube r other m = (Ok tt, m') ->
  update_cube r cube m' = (Ok tt, m').
Proof.
  intros Hset Hother.
  destruct (decide (other = cube)) as [->|Hne].
  { rewrite Hset in Hother. injection Hother as <-. exact Hset. }
  assert (Hsame : m' !! inr cube = m !! inr cube).
  { change m' with (Ok tt, m').2. rewrite <- Hother.
    apply update_cube_frame. congruence. }
  rewrite update_cube_entry in Hset |- *. rewrite Hsame.
  destruct (cube_entry r cube (m !! inr cube)) as [[v|]|e]; simpl in *;
    [|reflexivity|discriminate].
  injection Hset as Hset. f_equal. apply insert_id.
  rewrite Hsame, <- Hset. apply lookup_insert_eq.
Qed.

Lemma sweep_settles (r : Robot) (cubes : list (Z * handle)) (m ms : Objects)
    (id : Z) (cube : handle) :
  for_each cubes (fun '(_, cube) => update_cube r cube) m = (Ok tt, ms) ->
  ((id, cube) ∈ cubes \/ update_cube r cube m = (Ok tt, m)) ->
  update_cube r cube ms = (Ok tt, ms).
Proof.
  revert m. induction cubes as [|[id' cube'] cubes IH]; intros m; simpl.
  - intros [= <-] [Hin|Hset]; [inversion Hin|exact Hset].
  - run. destruct (update_cube r cube' m) as [[[]|e] m1] eqn:Hstep;
      [|discriminate].
    intros Hrest Hcase. apply (IH m1 Hrest).
    destruct Hcase as [Hin|Hset].
    + apply elem_of_cons in Hin as [[= -> ->]|Hin]; [|by left].
      right. exact (update_cube_settles _ _ _ _ Hstep).
    + right. exact (settled_stable _ _ _ _ _ Hset Hstep).
Qed.

End CubeFusion.

(** ** The full sweep and the event handler *)

(** Wall inference writes under wall identifiers only. *)
Lemma generate_walls_frame (cat : Catalog) (r : Robot) (m : Objects)
    (h : handle) :
  (generate_walls_from_markers cat r m).2 !! (inr h : key) = m !! (inr h : key).
Proof.
  unfold generate_walls_from_markers.
  generalize (distribute_markers cat (landmarks r)) as seen.
  intros seen. revert m.
  induction seen as [|[id markers] seen IH]; intros m; simpl; [reflexivity|].
  run. destruct (infer_wall cat id markers) as [wall|e]; simpl; [|reflexivity].
  unfold for_each in IH. run. rewrite IH. by rewrite lookup_insert_ne.
Qed.

Section Sweep.
Context `{ops : PoseOps}.

Lemma update_cube_local (r : Robot) (cube : handle) (m1 m2 : Objects) :
  m1 !! inr cube = m2 !! inr cube ->
  (update_cube r cube m1).1 = (update_cube r cube m2).1 /\
  (update_cube r cube m1).2 !! inr cube = (update_cube r cube m2).2 !! inr cube.
Proof.
  intros Hsame. rewrite !update_cube_entry, Hsame.
  destruct (cube_entry r cube (m2 !! inr cube)) as [[v|]|e]; simpl;
    (split; [reflexivity|]);
    [by rewrite !lookup_insert_eq|exact Hsame|exact Hsame].
Qed.

Lemma settled_sweep_entry (r : Robot) (cubes : list (Z * handle))
    (m ms : Objects) (cube : handle) :
  update_cube r cube m = (Ok tt, m) ->
  for_each cubes (fun '(_, cube) => update_cube r cube) m = (Ok tt, ms) ->
  ms !! inr cube = m !! inr cube.
Proof.
  revert m. induction cubes as [|[id' cube'] cubes IH]; intros m Hset; simpl.
  - by intros [= <-].
  - run. destruct (update_cube r cube' m) as [[[]|e] m1] eqn:Hstep;
      [|discriminate].
    intros Hrest.
    rewrite (IH m1 (settled_stable _ _ _ _ _ Hset Hstep) Hrest).
    destruct (decide (cube' = cube)) as [->|Hne].
    + rewrite Hset in Hstep. by injection Hstep as <-.
    + change m1 with (Ok tt, m1).2. rewrite <- Hstep.
      apply update_cube_frame. congruence.
Qed.

(** For a tracked cube, the sweep ends with the entry that one call of
    [update_cube] gives. *)
Lemma sweep_entry (r : Robot) (cubes : list (Z * handle)) (m ms : Objects)
    (id : Z) (cube : handle) :
  for_each cubes (fun '(_, cube) => update_cube r cube) m = (Ok tt, ms) ->
  (id, cube) ∈ cubes ->
  exists mh,
    update_cube r cube m = (Ok tt, mh) /\ ms !! inr cube = mh !! inr cube.
Proof.
  revert m. induction cubes as [|[id' cube'] cubes IH]; intros m; simpl.
  - intros _ Hin. inversion Hin.
  - run. destruct (update_cube r cube' m) as [[[]|e] m1] eqn:Hstep;
      [|discriminate].
    intros Hrest Hin.
    destruct (decide (cube' = cube)) as [->|Hne].
    + exists m1. split; [exact Hstep|].
      exact (settled_sweep_entry _ _ _ _ _
               (update_cube_settles _ _ _ _ Hstep) Hrest).
    + apply elem_of_cons in Hin as [[= _ Heq]|Hin]; [congruence|].
      destruct (IH m1 Hrest Hin) as (mh1 & Hrun1 & Hentry1).
      assert (Hsame : m1 !! inr cube = m !! inr cube).
      { change m1 with (Ok tt, m1).2. rewrite <- Hstep.
        apply update_cube_frame. congruence. }
      destruct (update_cube_local r cube m1 m Hsame) as [Hres Hent].
      rewrite Hrun1 in Hres, Hent. simpl in Hres, Hent.
      destruct (update_cube r cube m) as [res mh]. simpl in Hres, Hent.
      subst res. exists mh. split; [reflexivity|congruence].
Qed.

(** C9. [update_cube] is idempotent on an unchanged detection: a second
    call in succession gives the result and the map of the first.  Hence
    the event handler and the full sweep agree on a tracked cube: after a
    sweep the handler changes nothing, and from a common map both store
    the same entity under the cube. *)
Theorem update_cube_twice :
  (forall (r : Robot) (cube : handle) (m : Objects),
      update_cube r cube (update_cube r cube m).2 = update_cube r cube m)
  /\
  (forall (cat : Catalog) (r : Robot) (m ms : Objects) (id : Z) (cube : handle),
      update_map cat r m = (Ok tt, ms) ->
      (id, cube) ∈ light_cubes r ->
      sdk_class_of (sdk_objects r cube) = LightCube ->
      handle_object_observed r cube ms = (Ok tt, ms) /\
      exists mh,
        handle_object_observed r cube m = (Ok tt, mh) /\
        mh !! inr cube = ms !! inr cube).
Proof.
  split; [exact update_cube_idempotent|].
  intros cat r m ms id cube Hmap Hin Hclass.
  unfold handle_object_observed. rewrite Hclass.
  unfold update_map in Hmap. revert Hmap. run.
  pose proof (generate_walls_frame cat r m cube) as Hwalls.
  destruct (generate_walls_from_markers cat r m) as [[[]|e] mw];
    [|discriminate].
  simpl in Hwalls. intros Hsweep. split.
  - exact (sweep_settles r _ mw ms id cube Hsweep (or_introl Hin)).
  - destruct (sweep_entry r _ mw ms id cube Hsweep Hin) as (mh & Hrun & Hentry).
    destruct (update_cube_local r cube mw m Hwalls) as [Hres Hent].
    rewrite Hrun in Hres, Hent. simpl in Hres, Hent.
    destruct (update_cube r cube m) as [res mh']. simpl in Hres, Hent.
    subst res. exists mh'. split; [reflexivity|congruence].
Qed.

End Sweep.

(** ** First sightings and unobservable handles *)

Lemma keys_of_nil (cube : handle) (items : list (Z * handle)) :
  (forall id, (id, cube) ∉ items) -> keys_of cube items = [].
Proof.
  intros Hnot. unfold keys_of.
  induction items as [|[id h] items IH]; [reflexivity|].
  rewrite filter_cons. simpl. destruct (decide (h = cube)) as [->|Hne].
  - exfalso. apply (Hnot id). by left.
  - apply IH. intros id' Hin. apply (Hnot id'). by right.
Qed.

Lemma keys_of_elem (cube : handle) (items : list (Z * handle)) (id : Z) :
  id ∈ keys_of cube items -> (id, cube) ∈ items.
Proof.
  unfold keys_of. rewrite list_elem_of_fmap.
  intros ([id' h] & -> & Hin). apply list_elem_of_filter in Hin as [Heq Hin].
  simpl in Heq. by subst h.
Qed.

Lemma keys_of_first (cube : handle) (before after : list (Z * handle))
    (id : Z) :
  (forall id', (id', cube) ∉ before) ->
  keys_of cube (before ++ (id, cube) :: after) = id :: keys_of cube after.
Proof.
  intros Hnot. unfold keys_of. rewrite filter_app, fmap_app.
  fold (keys_of cube before). rewrite (keys_of_nil _ _ Hnot).
  rewrite filter_cons. simpl. by rewrite decide_True.
Qed.

Lemma keys_of_registered (cube : handle) (items : list (Z * handle)) (id : Z) :
  (id, cube) ∈ items -> exists id' ids, keys_of cube items = id' :: ids.
Proof.
  intros Hin. destruct (keys_of cube items) as [|id' ids] eqn:Hkeys;
    [|by exists id', ids].
  assert (Hid : id ∈ keys_of cube items).
  { unfold keys_of. apply list_elem_of_fmap. exists (id, cube).
    split; [reflexivity|]. by apply list_elem_of_filter. }
  rewrite Hkeys in Hid. inversion Hid.
Qed.

Section Sightings.
Context `{ops : PoseOps}.

Lemma update_cube_absent_pose (r : Robot) (cube : handle) (m : Objects) :
  pose (sdk_objects r cube) = None -> update_cube r cube m = (Ok tt, m).
Proof. intros Hp. unfold update_cube. by rewrite Hp. Qed.

Lemma update_cube_incomparable (r : Robot) (cube : handle) (m : Objects)
    (p : Pose) :
  pose (sdk_objects r cube) = Some p ->
  is_comparable p (robot_pose r) = false ->
  update_cube r cube m = (Ok tt, m).
Proof. intros Hp Hc. unfold update_cube. by rewrite Hp, Hc. Qed.

Lemma update_custom_object_incomparable (r : Robot) (sdk_obj : handle)
    (m : Objects) (p : Pose) :
  pose (sdk_objects r sdk_obj) = Some p ->
  is_comparable p (robot_pose r) = false ->
  update_custom_object r sdk_obj m = (Ok tt, m).
Proof. intros Hp Hc. unfold update_custom_object. by rewrite Hp, Hc. Qed.

(** Without a pose, [update_custom_object] fails on [None.is_comparable]. *)
Lemma update_custom_object_absent_pose (r : Robot) (sdk_obj : handle)
    (m : Objects) :
  pose (sdk_objects r sdk_obj) = None ->
  update_custom_object r sdk_obj m = (Raise AttributeError, m).
Proof. intros Hp. unfold update_custom_object. by rewrite Hp. Qed.

(** C4, where the code departs from it.  Custom object 2 has no pose yet:
    [update_cube] skips such a handle, but [update_custom_object] asks
    [None] for [is_comparable] and raises [AttributeError]; the event
    handler passes the exception on. *)
Theorem update_custom_object_without_pose (m : Objects) :
  pose (sdk_objects scene 2) = None /\
  update_cube scene 2 m = (Ok tt, m) /\
  update_custom_object scene 2 m = (Raise AttributeError, m) /\
  handle_object_observed scene 2 m = (Raise AttributeError, m).
Proof. repeat split; reflexivity. Qed.

(** C10. A cube that is not yet in the map and has a comparable pose gets
    its identifier from [light_cubes]: the key of the first item whose
    value is the cube, and the call stores the new light cube, fused, under
    the cube.  When no key has the cube as its value, indexing the empty
    tuple raises [IndexError] and the map is left as it was.  So a first
    sighting succeeds exactly when the cube is a value of [light_cubes].
    The event handler does the same on a light-cube event. *)
Theorem update_cube_first_sighting (r : Robot) (cube : handle) (m : Objects)
    (p : Pose) :
  m !! inr cube = None ->
  pose (sdk_objects r cube) = Some p ->
  is_comparable p (robot_pose r) = true ->
  ((forall id, (id, cube) ∉ light_cubes r) ->
     update_cube r cube m = (Raise IndexError, m)) /\
  (forall before id after,
      light_cubes r = before ++ (id, cube) :: after ->
      (forall id', (id', cube) ∉ before) ->
      exists o',
        update_cube r cube m = (Ok tt, <[inr cube := PyObj o']> m) /\
        update_coords r
          (PyObj (LightCubeObj (sdk_objects r) cube (IdInt id) 0 0 0 0)) cube
          = Ok o' /\
        WorldObject.id o' = IdInt id /\
        WorldObject.more o' = LightCubeAttrs cube light_cube_size) /\
  ((exists id, (id, cube) ∈ light_cubes r) <->
     (update_cube r cube m).1 = Ok tt) /\
  (forall id ids,
      keys_of cube (light_cubes r) = id :: ids ->
      exists o',
        update_cube r cube m = (Ok tt, <[inr cube := PyObj o']> m) /\
        WorldObject.id o' = IdInt id /\
        (id, cube) ∈ light_cubes r) /\
  (sdk_class_of (sdk_objects r cube) = LightCube ->
     handle_object_observed r cube m = update_cube r cube m).
Proof.
  intros Hm Hp Hc.
  assert (Hrun : update_cube r cube m
                 = write_entry cube (cube_entry r cube None) m).
  { rewrite update_cube_entry, Hm. reflexivity. }
  unfold cube_entry in Hrun. rewrite Hp, Hc in Hrun. simpl in Hrun.
  assert (Hfound : forall id ids,
    keys_of cube (light_cubes r) = id :: ids ->
    exists o',
      update_cube r cube m = (Ok tt, <[inr cube := PyObj o']> m) /\
      update_coords r
        (PyObj (LightCubeObj (sdk_objects r) cube (IdInt id) 0 0 0 0)) cube
        = Ok o' /\
      WorldObject.id o' = IdInt id /\
      WorldObject.more o' = LightCubeAttrs cube light_cube_size).
  { intros id ids Hkeys. rewrite Hkeys in Hrun. simpl in Hrun.
    destruct (update_coords_fields r
                (LightCubeObj (sdk_objects r) cube (IdInt id) 0 0 0 0) cube p Hp)
      as (o' & Ho' & _ & _ & _ & _ & _ & Hid & _ & Hmore).
    rewrite Ho' in Hrun. exists o'. split; [exact Hrun|].
    split; [exact Ho'|]. split; [exact Hid|exact Hmore]. }
  split; [|split; [|split; [|split]]].
  - intros Hnot. rewrite Hrun, (keys_of_nil _ _ Hnot). reflexivity.
  - intros before id after Hitems Hbefore.
    apply (Hfound id (keys_of cube after)).
    rewrite Hitems. by apply keys_of_first.
  - split.
    + intros [id Hin].
      destruct (keys_of_registered _ _ _ Hin) as (id' & ids & Hkeys).
      destruct (Hfound id' ids Hkeys) as (o' & Hok & _). by rewrite Hok.
    + rewrite Hrun.
      destruct (keys_of cube (light_cubes r)) as [|id ids] eqn:Hkeys;
        [discriminate|].
      intros _. exists id. apply keys_of_elem. rewrite Hkeys. by left.
  - intros id ids Hkeys.
    destruct (Hfound id ids Hkeys) as (o' & Hok & _ & Hid & _).
    exists o'. split; [exact Hok|]. split; [exact Hid|].
    apply keys_of_elem. rewrite Hkeys. by left.
  - intros Hclass. unfold handle_object_observed. by rewrite Hclass.
Qed.

End Sightings.

(** ** The heading invariant *)

Lemma headings_normalized_empty : headings_normalized ∅.
Proof. intros k v Hk. rewrite lookup_empty in Hk. discriminate. Qed.

Lemma headings_normalized_insert (m : Objects) (k : key) (v : stored) :
  headings_normalized m -> heading_ok v -> headings_normalized (<[k := v]> m).
Proof.
  intros Hm Hv k' v' Hk'.
  apply lookup_insert_Some in Hk' as [[_ <-]|[_ Hk']]; [exact Hv|].
  exact (Hm k' v' Hk').
Qed.

Lemma normalized_0 : normalized 0.
Proof. unfold normalized. pose proof PI_RGT_0. lra. Qed.

Lemma for_each_invariant {S A} (P : S -> Prop) (body : A -> M S unit)
    (l : list A) (s : S) :
  (forall a s', P s' -> P (body a s').2) -> P s -> P (for_each l body s).2.
Proof.
  intros Hbody. revert s. induction l as [|a l IH]; intros s Hs; simpl.
  - exact Hs.
  - unfold bind. pose proof (Hbody a s Hs) as Hstep.
    destruct (body a s) as [[[]|e] s1]; simpl in *; [by apply IH|exact Hstep].
Qed.

(** A wall gets the orientation of one of the markers of its group. *)
Lemma infer_wall_heading (cat : Catalog) (id : Z)
    (markers : list (Z * Landmark)) (v : stored) :
  Forall (fun m => normalized (orient m.2)) markers ->
  infer_wall cat id markers = Ok v -> heading_ok v.
Proof.
  induction 1 as [|[m_id m_spec] rest Hm _ IH]; simpl.
  - by intros [= <-].
  - destruct (cat !! m_id) as [ws|]; [|exact IH].
    destruct (WallSpec.markers ws !! m_id) as [[side coords]|]; [|discriminate].
    destruct coords as [|along more]; simpl; [discriminate|].
    intros [= <-]. exact Hm.
Qed.

Lemma alist_get_Forall {A} (P : A -> Prop) (k : Z) (d : list (Z * A)) (v : A) :
  Forall (fun g => P g.2) d -> alist_get k d = Some v -> P v.
Proof.
  induction 1 as [|[k' v'] d Hv _ IH]; simpl; [discriminate|].
  destruct (decide (k' = k)); [by intros [= <-]|exact IH].
Qed.

Lemma alist_set_Forall {A} (P : A -> Prop) (k : Z) (v : A) (d : list (Z * A)) :
  Forall (fun g => P g.2) d -> P v -> Forall (fun g => P g.2) (alist_set k v d).
Proof.
  intros Hd Hv. induction Hd as [|[k' v'] d Hv' Hd IH]; simpl.
  - by constructor.
  - destruct (decide (k' = k)); by constructor.
Qed.

Lemma distribute_markers_Forall (P : Z * Landmark -> Prop) (cat : Catalog)
    (lms : list (Z * Landmark)) :
  Forall P lms ->
  Forall (fun g => Forall P g.2) (distribute_markers cat lms).
Proof.
  unfold distribute_markers.
  assert (Hgen : forall seen : list (Z * list (Z * Landmark)),
    Forall P lms -> Forall (fun g => Forall P g.2) seen ->
    Forall (fun g => Forall P g.2)
      (fold_left
         (fun seen_markers '(id, spec) =>
            match cat !! id with
            | None => seen_markers
            | Some wall_spec =>
                let wall_id := WallSpec.id wall_spec in
                let markers := default [] (alist_get wall_id seen_markers) in
                alist_set wall_id (markers ++ [(id, spec)]) seen_markers
            end) lms seen)).
  { induction lms as [|[id spec] lms IH]; intros seen Hl Hs; simpl; [exact Hs|].
    apply Forall_cons in Hl as [Hhd Htl]. apply IH; [exact Htl|].
    destruct (cat !! id) as [ws|]; [|exact Hs].
    apply alist_set_Forall; [exact Hs|].
    apply Forall_app. split; [|by repeat constructor].
    destruct (alist_get (WallSpec.id ws) seen) as [g|] eqn:Hg; simpl;
      [|constructor].
    exact (alist_get_Forall (Forall P) _ _ _ Hs Hg). }
  intros Hl. apply Hgen; [exact Hl|constructor].
Qed.

Lemma generate_walls_headings (cat : Catalog) (r : Robot) (m : Objects) :
  Forall (fun lm => normalized (orient lm.2)) (landmarks r) ->
  headings_normalized m ->
  headings_normalized (generate_walls_from_markers cat r m).2.
Proof.
  intros Hlms. unfold generate_walls_from_markers.
  pose proof (distribute_markers_Forall _ cat _ Hlms) as Hseen.
  revert Hseen. generalize (distribute_markers cat (landmarks r)) as seen.
  intros seen Hseen. revert m.
  induction Hseen as [|[id markers] seen Hg _ IH]; intros m Hm; simpl.
  - exact Hm.
  - run. destruct (infer_wall cat id markers) as [wall|e] eqn:Hwall; simpl;
      [|exact Hm].
    unfold for_each in IH. run. apply IH.
    apply headings_normalized_insert; [exact Hm|].
    exact (infer_wall_heading _ _ _ _ Hg Hwall).
Qed.

Section Headings.
Context `{ops : PoseOps}.

Lemma update_coords_heading (r : Robot) (w : stored) (sdk_obj : handle)
    (o' : WorldObject.t) :
  update_coords r w sdk_obj = Ok o' -> heading_ok (PyObj o').
Proof.
  unfold update_coords.
  destruct (pose (sdk_objects r sdk_obj)) as [p|]; [|discriminate].
  destruct (particle_filter_pose r) as [[rob_x rob_y] rob_theta].
  destruct w as [|o]; [discriminate|].
  intros [= <-]. simpl. apply wrap_angle_range.
Qed.

Lemma update_cube_headings (r : Robot) (cube : handle) (m : Objects) :
  headings_normalized m -> headings_normalized (update_cube r cube m).2.
Proof.
  intros Hm. rewrite update_cube_entry.
  destruct (cube_entry r cube (m !! inr cube)) as [[v|]|e] eqn:He; simpl;
    [|exact Hm|exact Hm].
  apply headings_normalized_insert; [exact Hm|].
  revert He. unfold cube_entry.
  destruct (pose (sdk_objects r cube)) as [p|]; [|discriminate].
  destruct (negb (is_comparable p (robot_pose r))); [discriminate|].
  destruct (m !! inr cube) as [w|].
  - destruct (update_coords r w cube) as [o'|e] eqn:Hrun; [|discriminate].
    intros [= <-]. exact (update_coords_heading _ _ _ _ Hrun).
  - destruct (index0 (keys_of cube (light_cubes r))) as [id|e]; [|discriminate].
    destruct (update_coords r _ cube) as [o'|e] eqn:Hrun; [|discriminate].
    intros [= <-]. exact (update_coords_heading _ _ _ _ Hrun).
Qed.

Lemma update_custom_object_headings (r : Robot) (sdk_obj : handle)
    (m : Objects) :
  headings_normalized m ->
  headings_normalized (update_custom_object r sdk_obj m).2.
Proof.
  intros Hm. unfold update_custom_object.
  destruct (pose (sdk_objects r sdk_obj)) as [p|]; [|exact Hm].
  destruct (negb (is_comparable p (robot_pose r))); [exact Hm|].
  run. destruct (m !! inr sdk_obj) as [w|].
  - destruct (update_coords r w sdk_obj) as [o'|e] eqn:Hrun; simpl;
      [|exact Hm].
    apply headings_normalized_insert; [exact Hm|].
    exact (update_coords_heading _ _ _ _ Hrun).
  - simpl. destruct (update_coords r _ sdk_obj) as [o'|e] eqn:Hrun; simpl.
    + apply headings_normalized_insert;
        [|exact (update_coords_heading _ _ _ _ Hrun)].
      apply headings_normalized_insert; [exact Hm|apply normalized_0].
    + apply headings_normalized_insert; [exact Hm|apply normalized_0].
Qed.

(** C5, as the code has it.  Coordinate fusion normalises: the heading
    that [update_coords] assigns lies in (-pi, pi], so [update_cube],
    [update_custom_object] and the event handler keep every stored
    heading in that interval.  Wall inference does not normalise: it
    stores the orientation of the marker as it is, so it keeps the
    invariant when the landmark orientations it is given lie in
    (-pi, pi] themselves; under that condition the full sweep keeps it
    too. *)
Theorem headings_normalized_preserved (cat : Catalog) (r : Robot)
    (m : Objects) :
  headings_normalized m ->
  (forall w sdk_obj o',
      update_coords r w sdk_obj = Ok o' -> heading_ok (PyObj o')) /\
  (forall cube, headings_normalized (update_cube r cube m).2) /\
  (forall sdk_obj, headings_normalized (update_custom_object r sdk_obj m).2) /\
  (forall evt_obj, headings_normalized (handle_object_observed r evt_obj m).2) /\
  (Forall (fun lm => normalized (orient lm.2)) (landmarks r) ->
     headings_normalized (generate_walls_from_markers cat r m).2 /\
     headings_normalized (update_map cat r m).2).
Proof.
  intros Hm.
  split; [exact (update_coords_heading r)|].
  split; [intros cube; by apply update_cube_headings|].
  split; [intros sdk_obj; by apply update_custom_object_headings|].
  split.
  - intros evt_obj. unfold handle_object_observed.
    destruct (sdk_class_of (sdk_objects r evt_obj));
      [by apply update_cube_headings
      |by apply update_custom_object_headings
      |exact Hm].
  - intros Hlms.
    pose proof (generate_walls_headings cat r m Hlms Hm) as Hwalls.
    split; [exact Hwalls|].
    unfold update_map. run.
    destruct (generate_walls_from_markers cat r m) as [[[]|e] mw];
      simpl in *; [|exact Hwalls].
    apply (for_each_invariant headings_normalized); [|exact Hwalls].
    intros [id cube] s Hs. by apply update_cube_headings.
Qed.

End Headings.

(** ** More on coordinate fusion *)

Lemma for_each_invariant_in {S A} (P : S -> Prop) (body : A -> M S unit)
    (l : list A) (s : S) :
  (forall a s', a ∈ l -> P s' -> P (body a s').2) ->
  P s -> P (for_each l body s).2.
Proof.
  revert s. induction l as [|a l IH]; intros s Hbody Hs; simpl.
  - exact Hs.
  - unfold bind. pose proof (Hbody a s (list_elem_of_here _ _) Hs) as Hstep.
    destruct (body a s) as [[[]|e] s1]; simpl in *; [|exact Hstep].
    apply IH; [|exact Hstep].
    intros a' s' Hin. apply Hbody. by right.
Qed.

Section MoreFusion.
Context `{ops : PoseOps}.

(** X1. The displacement that [update_coords] adds to the agent's position
    is the raw displacement rotated: it has the same length. *)
Theorem update_coords_keeps_distance (r : Robot) (o : WorldObject.t)
    (sdk_obj : handle) (p : Pose) :
  pose (sdk_objects r sdk_obj) = Some p ->
  exists o',
    update_coords r (PyObj o) sdk_obj = Ok o' /\
    (WorldObject.x o' - (particle_filter_pose r).1.1) ^ 2
    + (WorldObject.y o' - (particle_filter_pose r).1.2) ^ 2
    = pos_x (pose_sub p (robot_pose r)) ^ 2
      + pos_y (pose_sub p (robot_pose r)) ^ 2.
Proof.
  intros Hp.
  destruct (update_coords_fields r o sdk_obj p Hp) as (o' & Hrun & Hx & Hy & _).
  exists o'. split; [exact Hrun|]. rewrite Hx, Hy.
  pose proof (sin2_cos2 (orient_diff r)) as Hone. unfold Rsqr in Hone.
  set (s := sin (orient_diff r)) in *. set (c := cos (orient_diff r)) in *.
  set (dx := pos_x (pose_sub p (robot_pose r))).
  set (dy := pos_y (pose_sub p (robot_pose r))).
  replace ((particle_filter_pose r).1.1 + (dx * c + dy * s)
           - (particle_filter_pose r).1.1) with (dx * c + dy * s) by ring.
  replace ((particle_filter_pose r).1.2 + (dx * - s + dy * c)
           - (particle_filter_pose r).1.2) with (dx * - s + dy * c) by ring.
  replace ((dx * c + dy * s) ^ 2 + (dx * - s + dy * c) ^ 2)
    with ((dx ^ 2 + dy ^ 2) * (s * s + c * c)) by ring.
  rewrite Hone. ring.
Qed.

(** X2. A cube that is already in the map is updated whether or not it is
    in [light_cubes]: with a comparable pose the call succeeds, stores the
    object that [update_coords] gives, and keeps its identifier and its
    attributes. *)
Theorem update_cube_known_entity (r : Robot) (cube : handle) (m : Objects)
    (p : Pose) (o : WorldObject.t) :
  m !! inr cube = Some (PyObj o) ->
  pose (sdk_objects r cube) = Some p ->
  is_comparable p (robot_pose r) = true ->
  exists o',
    update_cube r cube m = (Ok tt, <[inr cube := PyObj o']> m) /\
    update_coords r (PyObj o) cube = Ok o' /\
    WorldObject.id o' = WorldObject.id o /\
    WorldObject.more o' = WorldObject.more o.
Proof.
  intros Hm Hp Hc.
  destruct (update_coords_fields r o cube p Hp)
    as (o' & Hrun & _ & _ & _ & _ & _ & Hid & _ & Hmore).
  exists o'. rewrite update_cube_entry, Hm. unfold cube_entry.
  rewrite Hp, Hc. simpl. rewrite Hrun. simpl. auto.
Qed.

(** X3. [update_cube] reads and writes one entry: every other entry of the
    map, the walls among them, is left as it was, and an entry that exists
    is never removed. *)
Theorem update_cube_one_entry (r : Robot) (cube : handle) (m : Objects)
    (k : key) :
  (k <> inr cube -> (update_cube r cube m).2 !! k = m !! k) /\
  (is_Some (m !! k) -> is_Some ((update_cube r cube m).2 !! k)).
Proof.
  split; [apply update_cube_frame|].
  destruct (decide (k = inr cube)) as [->|Hne].
  - intros Hsome. rewrite update_cube_entry.
    destruct (cube_entry r cube (m !! inr cube)) as [[v|]|e]; simpl;
      [rewrite lookup_insert_eq; by eexists|exact Hsome|exact Hsome].
  - by rewrite update_cube_frame.
Qed.

(** X4. After a sweep that succeeds, every tracked cube that has a
    comparable pose is in the map, and its object is the one coordinate
    fusion gives for the current detection: fusing again changes nothing. *)
Theorem update_map_tracks_cubes (cat : Catalog) (r : Robot) (m ms : Objects)
    (id : Z) (cube : handle) (p : Pose) :
  update_map cat r m = (Ok tt, ms) ->
  (id, cube) ∈ light_cubes r ->
  pose (sdk_objects r cube) = Some p ->
  is_comparable p (robot_pose r) = true ->
  exists o,
    ms !! inr cube = Some (PyObj o) /\
    update_coords r (PyObj o) cube = Ok o /\
    WorldObject.z o = pos_z p + 10 /\
    WorldObject.is_visible o = is_visible (sdk_objects r cube).
Proof.
  intros Hmap Hin Hp Hc. unfold update_map in Hmap. revert Hmap. run.
  destruct (generate_walls_from_markers cat r m) as [[[]|e] mw]; [|discriminate].
  intros Hsweep.
  destruct (sweep_entry r _ mw ms id cube Hsweep Hin) as (mh & Hrun & Hentry).
  rewrite update_cube_entry in Hrun. unfold cube_entry in Hrun.
  rewrite Hp, Hc in Hrun. simpl in Hrun.
  assert (Hfused : exists w o, update_coords r w cube = Ok o /\
                               mh = <[inr cube := PyObj o]> mw).
  { destruct (mw !! inr cube) as [w|].
    - destruct (update_coords r w cube) as [o|e] eqn:Ho; [|discriminate].
      injection Hrun as <-. by exists w, o.
    - destruct (index0 (keys_of cube (light_cubes r))) as [i|e]; [|discriminate].
      destruct (update_coords r _ cube) as [o|e] eqn:Ho; [|discriminate].
      injection Hrun as <-. by eexists _, o. }
  destruct Hfused as (w & o & Ho & ->).
  exists o. rewrite Hentry, lookup_insert_eq.
  pose proof (update_coords_again _ _ _ _ Ho) as Hagain.
  destruct (update_coords_fields r o cube p Hp)
    as (o' & Hrun' & _ & _ & Hz & _ & Hvis & _).
  rewrite Hagain in Hrun'. injection Hrun' as <-.
  split; [reflexivity|]. split; [exact Hagain|]. split; [exact Hz|exact Hvis].
Qed.

(** X5. The sweep leaves alone what it does not track: the entry of an SDK
    object that is not a value of [light_cubes] is the same after
    [update_map], whether the sweep succeeds or raises. *)
Theorem update_map_keeps_untracked (cat : Catalog) (r : Robot) (m : Objects)
    (h : handle) :
  (forall id, (id, h) ∉ light_cubes r) ->
  (update_map cat r m).2 !! inr h = m !! inr h.
Proof.
  intros Hnot. unfold update_map. run.
  pose proof (generate_walls_frame cat r m h) as Hwalls.
  destruct (generate_walls_from_markers cat r m) as [[[]|e] mw]; simpl in *;
    [|exact Hwalls].
  apply (for_each_invariant_in (fun s : Objects => s !! inr h = m !! inr h));
    [|exact Hwalls].
  intros [id cube] s Hin Hs. rewrite update_cube_frame; [exact Hs|].
  intros [= ->]. exact (Hnot id Hin).
Qed.

End MoreFusion.

(** ** Custom objects *)

Section CustomObjects.
Context `{ops : PoseOps}.

(** X6. The first sighting of a custom object with a comparable pose always
    succeeds: the new object is identified by the object type of the SDK
    object, refers back to it, and has the default size 50 x 50 x 50, since
    [update_custom_object] passes no size and an object type is not a
    [CustomObject]. *)
Theorem update_custom_object_first_sighting (r : Robot) (sdk_obj : handle)
    (m : Objects) (p : Pose) :
  m !! inr sdk_obj = None ->
  pose (sdk_objects r sdk_obj) = Some p ->
  is_comparable p (robot_pose r) = true ->
  exists o',
    update_custom_object r sdk_obj m = (Ok tt, <[inr sdk_obj := PyObj o']> m) /\
    WorldObject.id o' = IdObjectType (object_type (sdk_objects r sdk_obj)) /\
    WorldObject.more o' = CustomCubeAttrs sdk_obj (50, 50, 50) /\
    WorldObject.obstacle o' = true /\
    WorldObject.z o' = pos_z p + 10 /\
    WorldObject.is_visible o' = is_visible (sdk_objects r sdk_obj).
Proof.
  intros Hm Hp Hc.
  destruct (update_coords_fields r
              (CustomCubeObj (sdk_objects r) sdk_obj
                 (IdObjectType (object_type (sdk_objects r sdk_obj))) 0 0 0 0 None)
              sdk_obj p Hp)
    as (o' & Hrun & _ & _ & Hz & _ & Hvis & Hid & Hobs & Hmore).
  exists o'. unfold update_custom_object. rewrite Hp, Hc. simpl. run.
  rewrite Hm. simpl. rewrite Hrun. simpl. rewrite insert_insert_eq.
  repeat split; assumption.
Qed.

Lemma update_custom_object_outcome (r : Robot) (sdk_obj : handle) (m : Objects) :
  update_custom_object r sdk_obj m = (Raise AttributeError, m) \/
  update_custom_object r sdk_obj m = (Ok tt, m) \/
  exists w o',
    update_coords r w sdk_obj = Ok o' /\
    update_custom_object r sdk_obj m = (Ok tt, <[inr sdk_obj := PyObj o']> m).
Proof.
  unfold update_custom_object.
  destruct (pose (sdk_objects r sdk_obj)) as [p|] eqn:Hp; [|by left].
  destruct (negb (is_comparable p (robot_pose r))); [right; by left|].
  run. destruct (m !! inr sdk_obj) as [w|] eqn:Hm.
  - destruct (update_coords r w sdk_obj) as [o'|e] eqn:Hrun.
    + right; right. by exists w, o'.
    + left. destruct w as [|o].
      * revert Hrun. unfold update_coords. rewrite Hp.
        destruct (particle_filter_pose r) as [[? ?] ?]. by intros [= <-].
      * destruct (update_coords_object r o sdk_obj p Hp) as [o' Ho'].
        congruence.
  - simpl.
    destruct (update_coords_object r
                (CustomCubeObj (sdk_objects r) sdk_obj
                   (IdObjectType (object_type (sdk_objects r sdk_obj)))
                   0 0 0 0 None) sdk_obj p Hp) as [o' Ho'].
    right; right. eexists _, o'. split; [exact Ho'|].
    rewrite Ho'. simpl. by rewrite insert_insert_eq.
Qed.

(** X7. [update_custom_object] is idempotent on an unchanged detection: a
    second call in succession gives the result and the map of the first. *)
Theorem update_custom_object_twice (r : Robot) (sdk_obj : handle)
    (m : Objects) :
  update_custom_object r sdk_obj (update_custom_object r sdk_obj m).2
  = update_custom_object r sdk_obj m.
Proof.
  destruct (update_custom_object_outcome r sdk_obj m)
    as [Hrun|[Hrun|(w & o' & Ho' & Hrun)]]; rewrite Hrun; simpl;
    [exact Hrun|exact Hrun|].
  revert Hrun. unfold update_custom_object.
  destruct (pose (sdk_objects r sdk_obj)) as [p|]; [|discriminate].
  destruct (negb (is_comparable p (robot_pose r))).
  - intros [= Heq]. rewrite <- Heq. reflexivity.
  - intros _. run. rewrite lookup_insert_eq.
    rewrite (update_coords_again _ _ _ _ Ho'). simpl.
    by rewrite insert_insert_eq.
Qed.

(** X8. [update_custom_object] reads and writes one entry: every other
    entry of the map is left as it was. *)
Theorem update_custom_object_one_entry (r : Robot) (sdk_obj : handle)
    (m : Objects) (k : key) :
  k <> inr sdk_obj ->
  (update_custom_object r sdk_obj m).2 !! k = m !! k.
Proof.
  intros Hk.
  destruct (update_custom_object_outcome r sdk_obj m)
    as [Hrun|[Hrun|(w & o' & _ & Hrun)]]; rewrite Hrun; simpl;
    [reflexivity|reflexivity|by rewrite lookup_insert_ne].
Qed.

Lemma update_coords_backref (r : Robot) (o o' : WorldObject.t)
    (sdk_obj : handle) :
  update_coords r (PyObj o) sdk_obj = Ok o' -> backref o' = backref o.
Proof.
  unfold update_coords.
  destruct (pose (sdk_objects r sdk_obj)) as [p|]; [|discriminate].
  destruct (particle_filter_pose r) as [[rob_x rob_y] rob_theta].
  by intros [= <-].
Qed.

Lemma backrefs_consistent_insert (m : Objects) (h : handle) (o : WorldObject.t) :
  backrefs_consistent m -> backref o = Some h ->
  backrefs_consistent (<[inr h := PyObj o]> m).
Proof.
  intros Hm Ho h' o' Hlook.
  apply lookup_insert_Some in Hlook as [[[= <-] [= <-]]|[_ Hlook]];
    [exact Ho|exact (Hm _ _ Hlook)].
Qed.

Lemma update_cube_backrefs (r : Robot) (cube : handle) (m : Objects) :
  backrefs_consistent m -> backrefs_consistent (update_cube r cube m).2.
Proof.
  intros Hm. rewrite update_cube_entry.
  destruct (cube_entry r cube (m !! inr cube)) as [[v|]|e] eqn:He; simpl;
    [|exact Hm|exact Hm].
  revert He. unfold cube_entry.
  destruct (pose (sdk_objects r cube)) as [p|]; [|discriminate].
  destruct (negb (is_comparable p (robot_pose r))); [discriminate|].
  destruct (m !! inr cube) as [w|] eqn:Hw.
  - destruct (update_coords r w cube) as [o'|e] eqn:Hrun; [|discriminate].
    intros [= <-]. apply backrefs_consistent_insert; [exact Hm|].
    destruct w as [|o].
    + revert Hrun. unfold update_coords.
      destruct (pose (sdk_objects r cube)); [|discriminate].
      destruct (particle_filter_pose r) as [[? ?] ?]. discriminate.
    + rewrite (update_coords_backref _ _ _ _ Hrun). exact (Hm _ _ Hw).
  - destruct (index0 (keys_of cube (light_cubes r))) as [id|e]; [|discriminate].
    destruct (update_coords r _ cube) as [o'|e] eqn:Hrun; [|discriminate].
    intros [= <-]. apply backrefs_consistent_insert; [exact Hm|].
    by rewrite (update_coords_backref _ _ _ _ Hrun).
Qed.

Lemma update_custom_object_backrefs (r : Robot) (sdk_obj : handle)
    (m : Objects) :
  backrefs_consistent m ->
  backrefs_consistent (update_custom_object r sdk_obj m).2.
Proof.
  intros Hm. unfold update_custom_object.
  destruct (pose (sdk_objects r sdk_obj)) as [p|]; [|exact Hm].
  destruct (negb (is_comparable p (robot_pose r))); [exact Hm|].
  run. destruct (m !! inr sdk_obj) as [w|] eqn:Hw.
  - destruct (update_coords r w sdk_obj) as [o'|e] eqn:Hrun; simpl; [|exact Hm].
    apply backrefs_consistent_insert; [exact Hm|].
    destruct w as [|o].
    + revert Hrun. unfold update_coords.
      destruct (pose (sdk_objects r sdk_obj)); [|discriminate].
      destruct (particle_filter_pose r) as [[? ?] ?]. discriminate.
    + rewrite (update_coords_backref _ _ _ _ Hrun). exact (Hm _ _ Hw).
  - simpl. destruct (update_coords r _ sdk_obj) as [o'|e] eqn:Hrun; simpl.
    + apply backrefs_consistent_insert.
      * by apply backrefs_consistent_insert.
      * by rewrite (update_coords_backref _ _ _ _ Hrun).
    + by apply backrefs_consistent_insert.
Qed.

Lemma generate_walls_backrefs (cat : Catalog) (r : Robot) (m : Objects) :
  backrefs_consistent m ->
  backrefs_consistent (generate_walls_from_markers cat r m).2.
Proof.
  intros Hm h o. rewrite generate_walls_frame. apply Hm.
Qed.

(** X9. Every object that the map stores under an SDK object refers back
    to that SDK object: cube fusion, custom-object fusion, the event handler
    and the full sweep all keep this. *)
Theorem backrefs_consistent_preserved (cat : Catalog) (r : Robot)
    (m : Objects) :
  backrefs_consistent m ->
  (forall cube, backrefs_consistent (update_cube r cube m).2) /\
  (forall sdk_obj, backrefs_consistent (update_custom_object r sdk_obj m).2) /\
  (forall evt_obj, backrefs_consistent (handle_object_observed r evt_obj m).2) /\
  backrefs_consistent (update_map cat r m).2.
Proof.
  intros Hm.
  split; [intros cube; by apply update_cube_backrefs|].
  split; [intros sdk_obj; by apply update_custom_object_backrefs|].
  split.
  - intros evt_obj. unfold handle_object_observed.
    destruct (sdk_class_of (sdk_objects r evt_obj));
      [by apply update_cube_backrefs
      |by apply update_custom_object_backrefs
      |exact Hm].
  - pose proof (generate_walls_backrefs cat r m Hm) as Hwalls.
    unfold update_map. run.
    destruct (generate_walls_from_markers cat r m) as [[[]|e] mw];
      simpl in *; [|exact Hwalls].
    apply (for_each_invariant backrefs_consistent); [|exact Hwalls].
    intros [id cube] s Hs. by apply update_cube_backrefs.
Qed.

End CustomObjects.

(** ** More on wall inference *)

(** X10. [infer_wall] returns [None] exactly when no marker of the group
    has a catalog entry; the empty group is one such case. *)
Theorem infer_wall_none (cat : Catalog) (id : Z)
    (markers : list (Z * Landmark)) :
  infer_wall cat id markers = Ok PyNone <->
  Forall (fun m => cat !! m.1 = None) markers.
Proof.
  split.
  - induction markers as [|[m_id m_spec] rest IH]; simpl; [constructor|].
    destruct (cat !! m_id) as [ws|] eqn:Hcat.
    + destruct (WallSpec.markers ws !! m_id) as [[side coords]|];
        [|discriminate].
      destruct coords; simpl; discriminate.
    + intros Hrest. constructor; [exact Hcat|by apply IH].
  - intros Hall. rewrite <- (app_nil_r markers).
    by rewrite infer_wall_skip.
Qed.

(** X11. [infer_wall] does not use its parameter [id]: the identifier of
    the wall is the one of the spec of the marker it is built from. *)
Theorem infer_wall_ignores_id (cat : Catalog) (id1 id2 : Z)
    (markers : list (Z * Landmark)) :
  infer_wall cat id1 markers = infer_wall cat id2 markers.
Proof.
  induction markers as [|[m_id m_spec] rest IH]; simpl; [reflexivity|].
  destruct (cat !! m_id); [reflexivity|exact IH].
Qed.

(** X12. Every wall that [infer_wall] returns is built from a marker of the
    group that has a catalog entry: it has the identifier, the length, the
    height and the door height of that marker's spec, stands at half the
    height, is an obstacle and is not marked visible. *)
Theorem infer_wall_wall (cat : Catalog) (id : Z)
    (markers : list (Z * Landmark)) (wall : WorldObject.t) :
  infer_wall cat id markers = Ok (PyObj wall) ->
  exists m_id m_spec ws,
    (m_id, m_spec) ∈ markers /\
    cat !! m_id = Some ws /\
    WorldObject.id wall = IdInt (WallSpec.id ws) /\
    WorldObject.theta wall = Some (orient m_spec) /\
    WorldObject.z wall = WallSpec.height ws / 2 /\
    WorldObject.obstacle wall = true /\
    WorldObject.is_visible wall = false /\
    exists door_width,
      WorldObject.more wall
      = WallAttrs (WallSpec.length ws) (WallSpec.height ws) door_width
          (WallSpec.door_height ws).
Proof.
  induction markers as [|[m_id m_spec] rest IH]; simpl; [discriminate|].
  destruct (cat !! m_id) as [ws|] eqn:Hcat.
  - destruct (WallSpec.markers ws !! m_id) as [[side coords]|]; [|discriminate].
    destruct coords as [|along more]; simpl; [discriminate|].
    intros [= <-]. exists m_id, m_spec, ws. simpl.
    split; [by left|]. repeat split; try reflexivity; try assumption.
    by eexists.
  - intros Hrest. destruct (IH Hrest) as (m_id' & m_spec' & ws & Hin & Hrest').
    exists m_id', m_spec', ws. split; [by right|exact Hrest'].
Qed.

(** X13. [WallSpec.__init__] keeps the catalog consistent: if every marker
    id of the catalog is a marker of the spec it maps to, the same holds
    after a construction, whether it succeeds or is rejected. *)
Theorem WallSpec_init_keeps_registered (length height door_width door_height : R)
    (markers : gmap Z (Z * list R)) (doorways : list (R * R))
    (cat : Catalog) :
  markers_registered cat ->
  markers_registered
    (WallSpec_init length height door_width door_height markers doorways cat).2.
Proof. apply WallSpec_init_markers_registered. Qed.

(** X14. With a consistent catalog the lookup [wall_spec.markers[m_id]]
    cannot fail: the only exception [infer_wall] can raise is the
    [IndexError] of a marker whose coordinate sequence is empty. *)
Theorem infer_wall_exceptions (cat : Catalog) (id : Z)
    (markers : list (Z * Landmark)) (e : exn) :
  markers_registered cat ->
  infer_wall cat id markers = Raise e ->
  e = IndexError.
Proof.
  intros Hcat. induction markers as [|[m_id m_spec] rest IH]; simpl;
    [discriminate|].
  destruct (cat !! m_id) as [ws|] eqn:Hws; [|exact IH].
  destruct (Hcat _ _ Hws) as [[side coords] Hm]. rewrite Hm.
  destruct coords; simpl; [by intros [= <-]|discriminate].
Qed.

(** *** The groups of [generate_walls_from_markers] *)

Lemma alist_get_set_eq {A} (k : Z) (v : A) (d : list (Z * A)) :
  alist_get k (alist_set k v d) = Some v.
Proof.
  induction d as [|[k' v'] d IH]; simpl.
  - by rewrite decide_True.
  - destruct (decide (k' = k)) as [->|Hne]; simpl.
    + by rewrite decide_True.
    + by rewrite decide_False.
Qed.

Lemma alist_get_set_ne {A} (k k0 : Z) (v : A) (d : list (Z * A)) :
  k0 <> k -> alist_get k (alist_set k0 v d) = alist_get k d.
Proof.
  intros Hne. induction d as [|[k' v'] d IH]; simpl.
  - by rewrite decide_False.
  - destruct (decide (k' = k0)) as [->|Hne']; simpl.
    + by rewrite !decide_False.
    + destruct (decide (k' = k)); [reflexivity|exact IH].
Qed.

Lemma alist_set_keys {A} (k : Z) (v : A) (d : list (Z * A)) :
  (alist_set k v d).*1 = if decide (k ∈ d.*1) then d.*1 else d.*1 ++ [k].
Proof.
  induction d as [|[k' v'] d IH].
  - destruct (decide (k ∈ ([] : list (Z * A)).*1)) as [Hin|_];
      [inversion Hin|reflexivity].
  - cbn [alist_set].
    destruct (decide (k ∈ ((k', v') :: d).*1)) as [Hin|Hnin];
      destruct (decide (k' = k)) as [->|Hne]; cbn [fmap list_fmap fst].
    + reflexivity.
    + change (k' :: (alist_set k v d).*1 = k' :: d.*1). f_equal.
      rewrite IH. rewrite decide_True; [reflexivity|].
      apply elem_of_cons in Hin as [Heq|Hin]; [simpl in Heq; congruence|exact Hin].
    + exfalso. apply Hnin. by left.
    + change (k' :: (alist_set k v d).*1 = k' :: (d.*1 ++ [k])). f_equal.
      rewrite IH. rewrite decide_False; [reflexivity|].
      intros Hin. apply Hnin. by right.
Qed.

Lemma alist_set_NoDup {A} (k : Z) (v : A) (d : list (Z * A)) :
  NoDup d.*1 -> NoDup (alist_set k v d).*1.
Proof.
  intros Hd. rewrite alist_set_keys.
  destruct (decide (k ∈ d.*1)) as [Hin|Hnin]; [exact Hd|].
  apply NoDup_app. split; [exact Hd|]. split.
  - intros x Hx Hk. apply list_elem_of_singleton in Hk. by subst x.
  - apply NoDup_singleton.
Qed.

Lemma alist_get_None {A} (k : Z) (d : list (Z * A)) :
  k ∉ d.*1 -> alist_get k d = None.
Proof.
  induction d as [|[k' v'] d IH]; simpl; [reflexivity|].
  intros Hnin. rewrite decide_False.
  - apply IH. intros Hin. apply Hnin. by right.
  - intros ->. apply Hnin. by left.
Qed.

Lemma group_of_cons (cat : Catalog) (w : Z) (m : Z * Landmark)
    (lms : list (Z * Landmark)) :
  group_of cat w (m :: lms)
  = if decide (wall_id_of cat m.1 = Some w) then m :: group_of cat w lms
    else group_of cat w lms.
Proof. unfold group_of. by rewrite filter_cons. Qed.

(** The first loop, started from any dict [seen]. *)
Lemma distribute_from (cat : Catalog) (lms : list (Z * Landmark))
    (seen : list (Z * list (Z * Landmark))) (w : Z) :
  (NoDup seen.*1 -> NoDup (fold_left (distribute_step cat) lms seen).*1) /\
  alist_get w (fold_left (distribute_step cat) lms seen)
  = match alist_get w seen with
    | Some g => Some (g ++ group_of cat w lms)
    | None =>
        match group_of cat w lms with
        | [] => None
        | g => Some g
        end
    end.
Proof.
  revert seen. induction lms as [|[id spec] lms IH]; intros seen.
  - split; [auto|]. simpl. destruct (alist_get w seen) as [g|];
      [by rewrite app_nil_r|reflexivity].
  - cbn [fold_left]. destruct (IH (distribute_step cat seen (id, spec)))
      as [Hnd Hget].
    rewrite Hget. clear Hget. rewrite group_of_cons. cbn [fst].
    destruct (cat !! id) as [ws|] eqn:Hcat.
    + assert (Hstep : distribute_step cat seen (id, spec)
                      = alist_set (WallSpec.id ws)
                          (default [] (alist_get (WallSpec.id ws) seen)
                           ++ [(id, spec)]) seen).
      { unfold distribute_step. cbn [fst]. by rewrite Hcat. }
      assert (Hwid : wall_id_of cat id = Some (WallSpec.id ws)).
      { unfold wall_id_of. by rewrite Hcat. }
      rewrite Hstep in *. rewrite Hwid.
      split; [intros Hseen; by apply Hnd, alist_set_NoDup|].
      destruct (decide (Some (WallSpec.id ws) = Some w)) as [[= Hw]|Hne].
      * subst w. rewrite alist_get_set_eq.
        destruct (alist_get (WallSpec.id ws) seen) as [g|]; simpl.
        -- by rewrite <- app_assoc.
        -- reflexivity.
      * rewrite alist_get_set_ne by congruence. reflexivity.
    + assert (Hstep : distribute_step cat seen (id, spec) = seen).
      { unfold distribute_step. cbn [fst]. by rewrite Hcat. }
      assert (Hwid : wall_id_of cat id = None).
      { unfold wall_id_of. by rewrite Hcat. }
      rewrite Hstep in *. rewrite Hwid.
      split; [exact Hnd|].
      rewrite decide_False by discriminate. reflexivity.
Qed.

Lemma distribute_markers_fold (cat : Catalog) (lms : list (Z * Landmark)) :
  distribute_markers cat lms = fold_left (distribute_step cat) lms [].
Proof.
  unfold distribute_markers. generalize ([] : list (Z * list (Z * Landmark))).
  induction lms as [|[id spec] lms IH]; intros seen; [reflexivity|].
  cbn [fold_left]. rewrite IH. reflexivity.
Qed.

Lemma distribute_markers_grouped (cat : Catalog)
    (lms : list (Z * Landmark)) (w : Z) :
  NoDup (distribute_markers cat lms).*1 /\
  alist_get w (distribute_markers cat lms)
  = match group_of cat w lms with
    | [] => None
    | g => Some g
    end.
Proof.
  rewrite distribute_markers_fold.
  destruct (distribute_from cat lms [] w) as [Hnd Hget].
  split; [apply Hnd; constructor|exact Hget].
Qed.

(** X15. The first loop of [generate_walls_from_markers] sorts the
    landmarks by wall: the group of a wall identifier holds the landmarks
    whose catalog spec has that identifier, in the order of the landmark
    table; a wall without such a landmark has no group; and no identifier
    has two groups. *)
Theorem distribute_markers_groups (cat : Catalog)
    (lms : list (Z * Landmark)) (w : Z) :
  NoDup (distribute_markers cat lms).*1 /\
  alist_get w (distribute_markers cat lms)
  = match group_of cat w lms with
    | [] => None
    | g => Some g
    end.
Proof. apply distribute_markers_grouped. Qed.

Lemma walls_loop (cat : Catalog) (seen : list (Z * list (Z * Landmark)))
    (m ms : Objects) (w : Z) :
  NoDup seen.*1 ->
  for_each seen
    (fun '(id, markers) =>
       wall ← lift (infer_wall cat id markers);
       modify (<[inl id := wall]>)) m = (Ok tt, ms) ->
  match alist_get w seen with
  | Some g => exists v, infer_wall cat w g = Ok v /\ ms !! (inl w : key) = Some v
  | None => ms !! (inl w : key) = m !! (inl w : key)
  end.
Proof.
  revert m. induction seen as [|[id g] seen IH]; intros m Hnd; simpl.
  - by intros [= <-].
  - apply NoDup_cons in Hnd as [Hnin Hnd]. simpl in Hnin. run.
    destruct (infer_wall cat id g) as [v|e] eqn:Hv; simpl; [|discriminate].
    intros Hrest. specialize (IH (<[inl id := v]> m) Hnd).
    unfold for_each in IH. revert IH. run. intros IH. specialize (IH Hrest).
    destruct (decide (id = w)) as [->|Hne].
    + rewrite (alist_get_None _ _ Hnin) in IH.
      exists v. split; [exact Hv|]. rewrite IH. apply lookup_insert_eq.
    + destruct (alist_get w seen) as [g'|]; [exact IH|].
      rewrite IH. apply lookup_insert_ne. congruence.
Qed.

(** X16. What wall inference leaves in the map when it succeeds: under a
    wall identifier that has landmarks, the wall built from the first of
    them in the order of the landmark table, whose own identifier is that
    key - never [None]; under any other wall identifier, what was there
    before. *)
Theorem generate_walls_result (cat : Catalog) (r : Robot) (m ms : Objects)
    (w : Z) :
  generate_walls_from_markers cat r m = (Ok tt, ms) ->
  match group_of cat w (landmarks r) with
  | [] => ms !! (inl w : key) = m !! (inl w : key)
  | first :: _ =>
      exists wall,
        infer_wall cat w [first] = Ok (PyObj wall) /\
        ms !! (inl w : key) = Some (PyObj wall) /\
        WorldObject.id wall = IdInt w
  end.
Proof.
  unfold generate_walls_from_markers. intros Hrun.
  destruct (distribute_markers_grouped cat (landmarks r) w) as [Hnd Hget].
  pose proof (walls_loop cat _ m ms w Hnd Hrun) as Hloop.
  rewrite Hget in Hloop.
  destruct (group_of cat w (landmarks r)) as [|[m_id m_spec] rest] eqn:Hgroup;
    [exact Hloop|].
  destruct Hloop as (v & Hv & Hlook).
  assert (Hin : (m_id, m_spec) ∈ group_of cat w (landmarks r)).
  { rewrite Hgroup. by left. }
  apply list_elem_of_filter in Hin as [Hwid _].
  unfold wall_id_of in Hwid. simpl in Hwid.
  destruct (cat !! m_id) as [ws|] eqn:Hcat; [|discriminate].
  injection Hwid as Hwid. revert Hv. simpl. rewrite Hcat.
  destruct (WallSpec.markers ws !! m_id) as [[side coords]|]; [|discriminate].
  destruct coords as [|along more]; simpl; [discriminate|].
  intros [= <-]. eexists. split; [reflexivity|]. split; [exact Hlook|].
  simpl. by rewrite Hwid.
Qed.

Lemma infer_wall_total (cat : Catalog) (id : Z)
    (markers : list (Z * Landmark)) :
  offsets_present cat -> exists v, infer_wall cat id markers = Ok v.
Proof.
  intros Hcat. induction markers as [|[m_id m_spec] rest IH]; simpl.
  - by eexists.
  - destruct (cat !! m_id) as [ws|] eqn:Hws; [|exact IH].
    destruct (Hcat _ _ Hws) as (side & along & more & Hm). rewrite Hm. simpl.
    by eexists.
Qed.

Lemma generate_walls_total (cat : Catalog) (r : Robot) (m : Objects) :
  offsets_present cat ->
  (generate_walls_from_markers cat r m).1 = Ok tt.
Proof.
  intros Hcat. unfold generate_walls_from_markers.
  generalize (distribute_markers cat (landmarks r)) as seen.
  intros seen. revert m.
  induction seen as [|[id markers] seen IH]; intros m; simpl; [reflexivity|].
  run. destruct (infer_wall_total cat id markers Hcat) as [v Hv].
  rewrite Hv. simpl. unfold for_each in IH. revert IH. run. intros IH.
  apply IH.
Qed.

(** X17. When every marker id of the catalog has an offset in its spec,
    wall inference cannot raise: [generate_walls_from_markers] succeeds on
    every landmark table. *)
Theorem generate_walls_succeeds (cat : Catalog) (r : Robot) (m : Objects) :
  offsets_present cat ->
  (generate_walls_from_markers cat r m).1 = Ok tt.
Proof. apply generate_walls_total. Qed.

(** X18. A construction whose markers all have an offset keeps the catalog
    in the state where every marker id has an offset in its spec. *)
Theorem WallSpec_init_keeps_offsets (length height door_width door_height : R)
    (markers : gmap Z (Z * list R)) (doorways : list (R * R))
    (cat : Catalog) :
  offsets_present cat ->
  (forall k side coords, markers !! k = Some (side, coords) -> coords <> []) ->
  offsets_present
    (WallSpec_init length height door_width door_height markers doorways cat).2.
Proof.
  intros Hcat Hmarkers. destruct (decide (markers = ∅)) as [->|Hne].
  { rewrite WallSpec_init_no_markers_run. exact Hcat. }
  destruct (WallSpec_init_run length height door_width door_height markers
              doorways cat Hne) as (id & cat' & Hrun & _ & _ & Hreg & Hkeep).
  cbn zeta in Hrun, Hreg. rewrite Hrun. simpl. intros k ws Hk.
  destruct (markers !! k) as [[side coords]|] eqn:Hm.
  - rewrite Hreg in Hk by (by eexists). injection Hk as <-. simpl.
    destruct coords as [|along more]; [by destruct (Hmarkers _ _ _ Hm)|].
    by exists side, along, more.
  - rewrite Hkeep in Hk by exact Hm. by apply Hcat.
Qed.

(** ** The sweep in normal operation *)

Lemma keys_of_tracked (cube : handle) (items : list (Z * handle)) (id : Z) :
  (id, cube) ∈ items -> keys_of cube items <> [].
Proof.
  intros Hin Hnil.
  assert (Hid : id ∈ keys_of cube items).
  { unfold keys_of. apply list_elem_of_fmap. exists (id, cube).
    split; [reflexivity|]. by apply list_elem_of_filter. }
  rewrite Hnil in Hid. inversion Hid.
Qed.

Lemma for_each_succeeds {S A} (P : S -> Prop) (body : A -> M S unit)
    (l : list A) (s : S) :
  (forall a s', a ∈ l -> P s' -> (body a s').1 = Ok tt /\ P (body a s').2) ->
  P s -> (for_each l body s).1 = Ok tt.
Proof.
  revert s. induction l as [|a l IH]; intros s Hbody Hs; simpl; [reflexivity|].
  unfold bind. destruct (Hbody a s (list_elem_of_here _ _) Hs) as [Hok Hnext].
  destruct (body a s) as [res s1]. simpl in Hok, Hnext. subst res.
  apply IH; [|exact Hnext]. intros a' s' Hin. apply Hbody. by right.
Qed.

Section NormalOperation.
Context `{ops : PoseOps}.

Lemma update_cube_tracked (r : Robot) (id : Z) (cube : handle) (m : Objects) :
  (id, cube) ∈ light_cubes r ->
  (forall h, m !! (inr h : key) <> Some PyNone) ->
  (update_cube r cube m).1 = Ok tt /\
  (forall h, (update_cube r cube m).2 !! (inr h : key) <> Some PyNone).
Proof.
  intros Hin Hm. rewrite update_cube_entry.
  assert (Hentry : cube_entry r cube (m !! inr cube) = Ok None \/
                   exists o, cube_entry r cube (m !! inr cube) = Ok (Some (PyObj o))).
  { unfold cube_entry.
    destruct (pose (sdk_objects r cube)) as [p|] eqn:Hp; [|by left].
    destruct (negb (is_comparable p (robot_pose r))); [by left|]. right.
    destruct (m !! inr cube) as [[|o]|] eqn:Hlook.
    - by destruct (Hm cube).
    - destruct (update_coords_object r o cube p Hp) as [o' Ho'].
      exists o'. by rewrite Ho'.
    - destruct (keys_of cube (light_cubes r)) as [|i ids] eqn:Hkeys;
        [by destruct (keys_of_tracked _ _ _ Hin)|].
      simpl.
      destruct (update_coords_object r
                  (LightCubeObj (sdk_objects r) cube (IdInt i) 0 0 0 0) cube p Hp)
        as [o' Ho'].
      exists o'. by rewrite Ho'. }
  destruct Hentry as [->|[o ->]]; simpl; (split; [reflexivity|]);
    [exact Hm|].
  intros h. destruct (decide (h = cube)) as [->|Hne].
  - rewrite lookup_insert_eq. discriminate.
  - rewrite lookup_insert_ne by congruence. apply Hm.
Qed.

(** X19. In normal operation the sweep does not raise: when every marker id
    of the catalog has an offset in its spec and no entry of the map holds
    [None] under an SDK object, [update_map] succeeds, whatever the
    landmarks, the tracked cubes and their poses. *)
Theorem update_map_succeeds (cat : Catalog) (r : Robot) (m : Objects) :
  offsets_present cat ->
  (forall h, m !! (inr h : key) <> Some PyNone) ->
  (update_map cat r m).1 = Ok tt.
Proof.
  intros Hcat Hm. unfold update_map. run.
  pose proof (generate_walls_total cat r m Hcat) as Hwalls.
  assert (Hmw : forall h,
    (generate_walls_from_markers cat r m).2 !! (inr h : key) <> Some PyNone).
  { intros h. rewrite generate_walls_frame. apply Hm. }
  destruct (generate_walls_from_markers cat r m) as [res mw].
  simpl in Hwalls, Hmw. subst res.
  apply (for_each_succeeds
           (fun s : Objects => forall h, s !! (inr h : key) <> Some PyNone));
    [|exact Hmw].
  intros [id cube] s Hin Hs. by apply (update_cube_tracked r id).
Qed.

End NormalOperation.

(** ** The concrete configurations *)

#[local] Existing Instance same_origin_ops.

Lemma wall_7_constructed :
  WallSpec_init 200 210 90 105 wall_7_markers [] ∅ = (Ok wall_7, wall_7_catalog).
Proof.
  unfold WallSpec_init, wall_7_markers. rewrite map_to_list_singleton.
  reflexivity.
Qed.

Lemma wall_7_catalog_7 : wall_7_catalog !! 7%Z = Some wall_7.
Proof. apply lookup_insert_eq. Qed.

Lemma wall_7_catalog_3 : wall_7_catalog !! 3%Z = None.
Proof. unfold wall_7_catalog. by rewrite lookup_insert_ne. Qed.

Lemma wall_7_offset : WallSpec.markers wall_7 !! 7%Z = Some (1%Z, [20; 50]).
Proof. apply lookup_singleton_eq. Qed.

Lemma scene_sweep_succeeds : (update_map wall_7_catalog scene ∅).1 = Ok tt.
Proof.
  unfold update_map, generate_walls_from_markers, distribute_markers. simpl.
  rewrite wall_7_catalog_3, wall_7_catalog_7. simpl.
  rewrite wall_7_catalog_7, wall_7_offset. simpl.
  run. simpl. rewrite update_cube_entry.
  rewrite lookup_insert_ne by discriminate. rewrite lookup_empty.
  reflexivity.
Qed.

Lemma pair_of_outcome {S} (run : result unit * S) :
  run.1 = Ok tt -> run = (Ok tt, run.2).
Proof. destruct run as [res s]. simpl. by intros ->. Qed.

(** C6, where the code departs from it.  The wall inferred for a spec whose
    door is 90 wide has the spec's length, height and door height, but the
    door width 75 that [WallObj] takes by default: [infer_wall] does not
    pass [door_width]. *)
Theorem infer_wall_door_width :
  WallSpec_init 200 210 90 105 wall_7_markers [] ∅ = (Ok wall_7, wall_7_catalog) /\
  WallSpec.door_width wall_7 = 90 /\
  exists wall,
    infer_wall wall_7_catalog 7 [(7%Z, marker_7_seen)] = Ok (PyObj wall) /\
    WorldObject.more wall = WallAttrs 200 210 75 105.
Proof.
  split; [exact wall_7_constructed|]. split; [reflexivity|].
  eexists. simpl. rewrite wall_7_catalog_7, wall_7_offset. simpl.
  split; reflexivity.
Qed.

(** C5 fails as stated: from the empty map, wall inference on marker 7 seen
    with an orientation of 5 radians stores a wall whose heading is 5, which
    is not in (-pi, pi]. *)
Lemma wall_heading_not_normalized :
  headings_normalized ∅ /\
  ~ headings_normalized (generate_walls_from_markers wall_7_catalog scene_turned ∅).2.
Proof.
  split; [exact headings_normalized_empty|].
  intros Hinv.
  assert (Hwall : exists wall,
    (generate_walls_from_markers wall_7_catalog scene_turned ∅).2 !! (inl 7%Z : key)
    = Some (PyObj wall) /\ WorldObject.theta wall = Some 5).
  { unfold generate_walls_from_markers, distribute_markers. simpl.
    rewrite wall_7_catalog_7. simpl. rewrite wall_7_catalog_7, wall_7_offset.
    simpl. eexists. split; [apply lookup_insert_eq|reflexivity]. }
  destruct Hwall as (wall & Hlook & Htheta).
  specialize (Hinv _ _ Hlook). simpl in Hinv. rewrite Htheta in Hinv.
  destruct Hinv as [_ Hle]. pose proof PI_4. lra.
Qed.

Lemma update_coords_null_discrepancy_witness :
  pose (sdk_objects scene 1) = Some tracked_cube_pose /\
  orient_diff scene = 0 /\
  normalized (angle_z tracked_cube_pose) /\
  particle_filter_pose scene = (100, 50, 0) /\
  angle_z (robot_pose scene) = 0 /\
  pos_x (pose_sub tracked_cube_pose (robot_pose scene)) = 30 /\
  pos_y (pose_sub tracked_cube_pose (robot_pose scene)) = 0 /\
  angle_z tracked_cube_pose = PI / 2 /\
  (exists o',
     update_coords scene (PyObj new_cube_1) 1 = Ok o' /\
     WorldObject.x o' = 130 /\
     WorldObject.y o' = 50 /\
     WorldObject.theta o' = Some (PI / 2)) /\
  (exists o',
     update_coords scene (PyObj new_cube_1) 1 = Ok o' /\
     WorldObject.theta o' = Some (angle_z tracked_cube_pose)).
Proof.
  assert (Hdiff : orient_diff scene = 0).
  { apply orient_diff_same_heading. reflexivity. }
  assert (Hnorm : normalized (angle_z tracked_cube_pose)).
  { unfold normalized. simpl. pose proof PI_RGT_0. lra. }
  assert (Hdx : pos_x (pose_sub tracked_cube_pose (robot_pose scene)) = 30)
    by (simpl; lra).
  assert (Hdy : pos_y (pose_sub tracked_cube_pose (robot_pose scene)) = 0)
    by (simpl; lra).
  repeat (split; [first [reflexivity | assumption]|]).
  split.
  - exact (proj2 (update_coords_null_discrepancy (ops := same_origin_ops))
             scene new_cube_1 1%positive tracked_cube_pose
             eq_refl eq_refl eq_refl Hdx Hdy eq_refl).
  - destruct (proj1 (update_coords_null_discrepancy (ops := same_origin_ops))
                scene new_cube_1 1%positive tracked_cube_pose eq_refl Hdiff)
      as (o' & Hrun & _ & _ & _ & Hth).
    exists o'. split; [exact Hrun|exact (Hth Hnorm)].
Defined.

Lemma update_coords_z_bias_witness :
  pose (sdk_objects scene 1) = Some tracked_cube_pose /\
  exists o',
    update_coords scene (PyObj new_cube_1) 1 = Ok o' /\
    WorldObject.z o' = pos_z tracked_cube_pose + 10.
Proof.
  split; [reflexivity|].
  exact (update_coords_z_bias scene new_cube_1 1%positive tracked_cube_pose eq_refl).
Defined.

Lemma infer_wall_first_usable_marker_witness :
  Forall (fun m => wall_7_catalog !! m.1 = None) [(3%Z, marker_3_seen)] /\
  wall_7_catalog !! 7%Z = Some wall_7 /\
  WallSpec.length wall_7 = 200 /\
  WallSpec.markers wall_7 !! 7%Z = Some (1%Z, [20; 50]) /\
  mu_x marker_7_seen = 10 /\ mu_y marker_7_seen = 0 /\ orient marker_7_seen = 0 /\
  exists wall,
    infer_wall wall_7_catalog 7
      ([(3%Z, marker_3_seen)] ++ (7%Z, marker_7_seen) :: [(7%Z, marker_7_turned)])
    = Ok (PyObj wall) /\
    WorldObject.x wall = 10 /\
    WorldObject.y wall = -80 /\
    WorldObject.theta wall = Some 0.
Proof.
  assert (Hbefore :
    Forall (fun m => wall_7_catalog !! m.1 = None) [(3%Z, marker_3_seen)]).
  { constructor; [exact wall_7_catalog_3|constructor]. }
  split; [exact Hbefore|]. split; [exact wall_7_catalog_7|].
  split; [reflexivity|]. split; [exact wall_7_offset|].
  do 3 (split; [reflexivity|]).
  exact (proj2 infer_wall_first_usable_marker wall_7_catalog 7%Z marker_7_seen
           [(3%Z, marker_3_seen)] [(7%Z, marker_7_turned)] wall_7 1%Z [50]
           Hbefore wall_7_catalog_7 eq_refl wall_7_offset eq_refl eq_refl eq_refl).
Defined.

Lemma WallSpec_init_registers_witness :
  wall_7_markers <> ∅ /\
  WallSpec_init 200 210 90 105 wall_7_markers [] ∅ = (Ok wall_7, wall_7_catalog) /\
  WallSpec_init 300 210 75 105 wall_7_markers [] wall_7_catalog
    = (Ok wall_7_again, <[7%Z := wall_7_again]> wall_7_catalog) /\
  is_Some (wall_7_markers !! 7%Z) /\
  (exists self cat',
     WallSpec_init 200 210 90 105 wall_7_markers [] ∅ = (Ok self, cat') /\
     WallSpec.markers self = wall_7_markers /\
     is_Some (wall_7_markers !! WallSpec.id self) /\
     (forall k, is_Some (wall_7_markers !! k) -> (WallSpec.id self <= k)%Z) /\
     (forall k, is_Some (wall_7_markers !! k) -> cat' !! k = Some self) /\
     (forall k, wall_7_markers !! k = None -> cat' !! k = (∅ : Catalog) !! k)) /\
  wall_7_catalog !! 7%Z = Some wall_7 /\
  <[7%Z := wall_7_again]> wall_7_catalog !! 7%Z = Some wall_7_again.
Proof.
  assert (Hne : wall_7_markers <> ∅) by apply insert_non_empty.
  assert (Hsecond :
    WallSpec_init 300 210 75 105 wall_7_markers [] wall_7_catalog
    = (Ok wall_7_again, <[7%Z := wall_7_again]> wall_7_catalog)).
  { unfold WallSpec_init, wall_7_markers. rewrite map_to_list_singleton.
    reflexivity. }
  assert (Hseven : is_Some (wall_7_markers !! 7%Z)).
  { exists (1%Z, [20; 50]). apply lookup_singleton_eq. }
  split; [exact Hne|]. split; [exact wall_7_constructed|].
  split; [exact Hsecond|]. split; [exact Hseven|].
  split.
  - exact (proj1 WallSpec_init_registers 200 210 90 105 wall_7_markers [] ∅ Hne).
  - exact (proj2 (proj2 WallSpec_init_registers)
             200 210 90 105 300 210 75 105 wall_7_markers wall_7_markers [] []
             ∅ wall_7_catalog (<[7%Z := wall_7_again]> wall_7_catalog)
             wall_7 wall_7_again 7%Z
             wall_7_constructed Hsecond Hseven Hseven).
Defined.

Lemma update_cube_twice_witness :
  update_map wall_7_catalog scene ∅
    = (Ok tt, (update_map wall_7_catalog scene ∅).2) /\
  (1%Z, 1%positive) ∈ light_cubes scene /\
  sdk_class_of (sdk_objects scene 1) = LightCube /\
  handle_object_observed scene 1 (update_map wall_7_catalog scene ∅).2
    = (Ok tt, (update_map wall_7_catalog scene ∅).2) /\
  exists mh,
    handle_object_observed scene 1 ∅ = (Ok tt, mh) /\
    mh !! inr 1%positive = (update_map wall_7_catalog scene ∅).2 !! inr 1%positive.
Proof.
  assert (Hrun : update_map wall_7_catalog scene ∅
                 = (Ok tt, (update_map wall_7_catalog scene ∅).2))
    by exact (pair_of_outcome _ scene_sweep_succeeds).
  assert (Hin : (1%Z, 1%positive) ∈ light_cubes scene) by apply list_elem_of_here.
  split; [exact Hrun|]. split; [exact Hin|]. split; [reflexivity|].
  exact (proj2 (update_cube_twice (ops := same_origin_ops))
           wall_7_catalog scene ∅ _ 1%Z 1%positive Hrun Hin eq_refl).
Defined.

Lemma update_cube_first_sighting_witness :
  ((∅ : Objects) !! inr 3%positive = None /\
   pose (sdk_objects scene 3) = Some untracked_cube_pose /\
   is_comparable untracked_cube_pose (robot_pose scene) = true /\
   (forall id, (id, 3%positive) ∉ light_cubes scene) /\
   update_cube scene 3 ∅ = (Raise IndexError, ∅)) /\
  ((∅ : Objects) !! inr 1%positive = None /\
   pose (sdk_objects scene 1) = Some tracked_cube_pose /\
   is_comparable tracked_cube_pose (robot_pose scene) = true /\
   light_cubes scene = [] ++ (1%Z, 1%positive) :: [] /\
   (forall id', (id', 1%positive) ∉ ([] : list (Z * handle))) /\
   (exists id, (id, 1%positive) ∈ light_cubes scene) /\
   sdk_class_of (sdk_objects scene 1) = LightCube /\
   (exists o',
      update_cube scene 1 ∅ = (Ok tt, <[inr 1%positive := PyObj o']> ∅) /\
      update_coords scene (PyObj new_cube_1) 1 = Ok o' /\
      WorldObject.id o' = IdInt 1 /\
      WorldObject.more o' = LightCubeAttrs 1 light_cube_size) /\
   (update_cube scene 1 ∅).1 = Ok tt /\
   handle_object_observed scene 1 ∅ = update_cube scene 1 ∅).
Proof.
  assert (Hnot3 : forall id, (id, 3%positive) ∉ light_cubes scene).
  { intros id Hin. apply list_elem_of_singleton in Hin. discriminate. }
  assert (Hnil : forall id', (id', 1%positive) ∉ ([] : list (Z * handle))).
  { intros id' Hin. inversion Hin. }
  assert (Hin1 : exists id, (id, 1%positive) ∈ light_cubes scene).
  { exists 1%Z. apply list_elem_of_here. }
  split.
  - do 3 (split; [reflexivity|]). split; [exact Hnot3|].
    exact (proj1 (update_cube_first_sighting (ops := same_origin_ops)
                    scene 3%positive ∅ untracked_cube_pose
                    eq_refl eq_refl eq_refl) Hnot3).
  - assert (Hnew : (∅ : Objects) !! inr 1%positive = None) by apply lookup_empty.
    destruct (update_cube_first_sighting (ops := same_origin_ops)
                scene 1%positive ∅ tracked_cube_pose Hnew eq_refl eq_refl)
      as (_ & Hfirst & Hiff & _ & Hevent).
    split; [exact Hnew|]. do 3 (split; [reflexivity|]). split; [exact Hnil|].
    split; [exact Hin1|]. split; [reflexivity|].
    split; [exact (Hfirst [] 1%Z [] eq_refl Hnil)|].
    split; [exact (proj1 Hiff Hin1)|exact (Hevent eq_refl)].
Defined.

Lemma headings_normalized_preserved_witness :
  headings_normalized ∅ /\
  Forall (fun lm => normalized (orient lm.2)) (landmarks scene) /\
  headings_normalized (update_cube scene 1 ∅).2 /\
  headings_normalized (update_map wall_7_catalog scene ∅).2.
Proof.
  assert (Hlms : Forall (fun lm => normalized (orient lm.2)) (landmarks scene)).
  { repeat constructor; simpl; pose proof PI_RGT_0; pose proof PI_4;
      pose proof PI2_3_2; lra. }
  split; [exact headings_normalized_empty|]. split; [exact Hlms|].
  destruct (headings_normalized_preserved (ops := same_origin_ops)
              wall_7_catalog scene ∅ headings_normalized_empty)
    as (_ & Hcube & _ & _ & Hwalls).
  split; [exact (Hcube 1%positive)|exact (proj2 (Hwalls Hlms))].
Defined.

(** ** More concrete runs *)

Lemma wall_7_catalog_offsets : offsets_present wall_7_catalog.
Proof.
  intros k ws Hk. unfold wall_7_catalog in Hk.
  apply lookup_insert_Some in Hk as [[<- <-]|[_ Hk]].
  - exists 1%Z, 20, [50]. exact wall_7_offset.
  - rewrite lookup_empty in Hk. discriminate.
Qed.

Lemma empty_map_no_None (h : handle) : (∅ : Objects) !! (inr h : key) <> Some PyNone.
Proof. rewrite lookup_empty. discriminate. Qed.

Lemma update_coords_keeps_distance_witness :
  pose (sdk_objects scene 1) = Some tracked_cube_pose /\
  exists o',
    update_coords scene (PyObj new_cube_1) 1 = Ok o' /\
    (WorldObject.x o' - (particle_filter_pose scene).1.1) ^ 2
    + (WorldObject.y o' - (particle_filter_pose scene).1.2) ^ 2
    = pos_x (pose_sub tracked_cube_pose (robot_pose scene)) ^ 2
      + pos_y (pose_sub tracked_cube_pose (robot_pose scene)) ^ 2.
Proof.
  split; [reflexivity|].
  exact (update_coords_keeps_distance (ops := same_origin_ops)
           scene new_cube_1 1%positive tracked_cube_pose eq_refl).
Defined.

Lemma update_cube_known_entity_witness :
  map_with_cube_3 !! inr 3%positive = Some (PyObj old_cube_3) /\
  pose (sdk_objects scene 3) = Some untracked_cube_pose /\
  is_comparable untracked_cube_pose (robot_pose scene) = true /\
  (forall id, (id, 3%positive) ∉ light_cubes scene) /\
  exists o',
    update_cube scene 3 map_with_cube_3
      = (Ok tt, <[inr 3%positive := PyObj o']> map_with_cube_3) /\
    update_coords scene (PyObj old_cube_3) 3 = Ok o' /\
    WorldObject.id o' = WorldObject.id old_cube_3 /\
    WorldObject.more o' = WorldObject.more old_cube_3.
Proof.
  assert (Hlook : map_with_cube_3 !! inr 3%positive = Some (PyObj old_cube_3))
    by apply lookup_insert_eq.
  split; [exact Hlook|]. do 2 (split; [reflexivity|]).
  split.
  { intros id Hin. apply list_elem_of_singleton in Hin. discriminate. }
  exact (update_cube_known_entity (ops := same_origin_ops)
           scene 3%positive map_with_cube_3 untracked_cube_pose old_cube_3
           Hlook eq_refl eq_refl).
Defined.

Lemma update_cube_one_entry_witness :
  (inr 3%positive : key) <> inr 1%positive /\
  is_Some (map_with_cube_3 !! (inr 3%positive : key)) /\
  (update_cube scene 1 map_with_cube_3).2 !! (inr 3%positive : key)
    = map_with_cube_3 !! (inr 3%positive : key) /\
  is_Some ((update_cube scene 1 map_with_cube_3).2 !! (inr 3%positive : key)).
Proof.
  assert (Hne : (inr 3%positive : key) <> inr 1%positive) by discriminate.
  assert (Hsome : is_Some (map_with_cube_3 !! (inr 3%positive : key))).
  { exists (PyObj old_cube_3). apply lookup_insert_eq. }
  split; [exact Hne|]. split; [exact Hsome|].
  destruct (update_cube_one_entry (ops := same_origin_ops)
              scene 1%positive map_with_cube_3 (inr 3%positive)) as [Hframe Hkeep].
  split; [exact (Hframe Hne)|exact (Hkeep Hsome)].
Defined.

Lemma update_map_tracks_cubes_witness :
  update_map wall_7_catalog scene ∅
    = (Ok tt, (update_map wall_7_catalog scene ∅).2) /\
  (1%Z, 1%positive) ∈ light_cubes scene /\
  pose (sdk_objects scene 1) = Some tracked_cube_pose /\
  is_comparable tracked_cube_pose (robot_pose scene) = true /\
  exists o,
    (update_map wall_7_catalog scene ∅).2 !! inr 1%positive = Some (PyObj o) /\
    update_coords scene (PyObj o) 1 = Ok o /\
    WorldObject.z o = pos_z tracked_cube_pose + 10 /\
    WorldObject.is_visible o = is_visible (sdk_objects scene 1).
Proof.
  assert (Hrun : update_map wall_7_catalog scene ∅
                 = (Ok tt, (update_map wall_7_catalog scene ∅).2))
    by exact (pair_of_outcome _ scene_sweep_succeeds).
  assert (Hin : (1%Z, 1%positive) ∈ light_cubes scene) by apply list_elem_of_here.
  split; [exact Hrun|]. split; [exact Hin|]. do 2 (split; [reflexivity|]).
  exact (update_map_tracks_cubes (ops := same_origin_ops)
           wall_7_catalog scene ∅ _ 1%Z 1%positive tracked_cube_pose
           Hrun Hin eq_refl eq_refl).
Defined.

Lemma update_map_keeps_untracked_witness :
  (forall id, (id, 3%positive) ∉ light_cubes scene) /\
  (update_map wall_7_catalog scene map_with_cube_3).2 !! inr 3%positive
  = map_with_cube_3 !! inr 3%positive.
Proof.
  assert (Hnot : forall id, (id, 3%positive) ∉ light_cubes scene).
  { intros id Hin. apply list_elem_of_singleton in Hin. discriminate. }
  split; [exact Hnot|].
  exact (update_map_keeps_untracked (ops := same_origin_ops)
           wall_7_catalog scene map_with_cube_3 3%positive Hnot).
Defined.

Lemma update_custom_object_first_sighting_witness :
  (∅ : Objects) !! inr 4%positive = None /\
  pose (sdk_objects gallery 4) = Some custom_object_pose /\
  is_comparable custom_object_pose (robot_pose gallery) = true /\
  exists o',
    update_custom_object gallery 4 ∅ = (Ok tt, <[inr 4%positive := PyObj o']> ∅) /\
    WorldObject.id o' = IdObjectType (object_type (sdk_objects gallery 4)) /\
    WorldObject.more o' = CustomCubeAttrs 4 (50, 50, 50) /\
    WorldObject.obstacle o' = true /\
    WorldObject.z o' = pos_z custom_object_pose + 10 /\
    WorldObject.is_visible o' = is_visible (sdk_objects gallery 4).
Proof.
  do 3 (split; [reflexivity|]).
  exact (update_custom_object_first_sighting (ops := same_origin_ops)
           gallery 4%positive ∅ custom_object_pose eq_refl eq_refl eq_refl).
Defined.

Lemma update_custom_object_one_entry_witness :
  (inr 3%positive : key) <> inr 4%positive /\
  (update_custom_object gallery 4 map_with_cube_3).2 !! (inr 3%positive : key)
  = map_with_cube_3 !! (inr 3%positive : key).
Proof.
  assert (Hne : (inr 3%positive : key) <> inr 4%positive) by discriminate.
  split; [exact Hne|].
  exact (update_custom_object_one_entry (ops := same_origin_ops)
           gallery 4%positive map_with_cube_3 (inr 3%positive) Hne).
Defined.

Lemma backrefs_consistent_preserved_witness :
  backrefs_consistent map_with_cube_3 /\
  backrefs_consistent (update_cube gallery 1 map_with_cube_3).2 /\
  backrefs_consistent (update_custom_object gallery 4 map_with_cube_3).2 /\
  backrefs_consistent (update_map wall_7_catalog gallery map_with_cube_3).2.
Proof.
  assert (Hm : backrefs_consistent map_with_cube_3).
  { intros h o Hlook. unfold map_with_cube_3 in Hlook.
    apply lookup_insert_Some in Hlook as [[[= <-] [= <-]]|[_ Hlook]];
      [reflexivity|]. rewrite lookup_empty in Hlook. discriminate. }
  split; [exact Hm|].
  destruct (backrefs_consistent_preserved (ops := same_origin_ops)
              wall_7_catalog gallery map_with_cube_3 Hm)
    as (Hcube & Hcustom & _ & Hmap).
  split; [exact (Hcube 1%positive)|].
  split; [exact (Hcustom 4%positive)|exact Hmap].
Defined.

Lemma infer_wall_none_witness :
  Forall (fun m => wall_7_catalog !! m.1 = None) [(3%Z, marker_3_seen)] /\
  infer_wall wall_7_catalog 7 [(3%Z, marker_3_seen)] = Ok PyNone.
Proof.
  assert (Hall : Forall (fun m => wall_7_catalog !! m.1 = None)
                   [(3%Z, marker_3_seen)]).
  { constructor; [exact wall_7_catalog_3|constructor]. }
  split; [exact Hall|].
  exact (proj2 (infer_wall_none wall_7_catalog 7%Z [(3%Z, marker_3_seen)]) Hall).
Defined.

Lemma infer_wall_wall_witness :
  exists wall,
    infer_wall wall_7_catalog 7 [(3%Z, marker_3_seen); (7%Z, marker_7_seen)]
      = Ok (PyObj wall) /\
    exists m_id m_spec ws,
      (m_id, m_spec) ∈ [(3%Z, marker_3_seen); (7%Z, marker_7_seen)] /\
      wall_7_catalog !! m_id = Some ws /\
      WorldObject.id wall = IdInt (WallSpec.id ws) /\
      WorldObject.theta wall = Some (orient m_spec) /\
      WorldObject.z wall = WallSpec.height ws / 2 /\
      WorldObject.obstacle wall = true /\
      WorldObject.is_visible wall = false /\
      exists door_width,
        WorldObject.more wall
        = WallAttrs (WallSpec.length ws) (WallSpec.height ws) door_width
            (WallSpec.door_height ws).
Proof.
  assert (Hrun : exists wall,
    infer_wall wall_7_catalog 7 [(3%Z, marker_3_seen); (7%Z, marker_7_seen)]
    = Ok (PyObj wall)).
  { eexists. simpl. rewrite wall_7_catalog_3, wall_7_catalog_7, wall_7_offset.
    reflexivity. }
  destruct Hrun as [wall Hrun]. exists wall. split; [exact Hrun|].
  exact (infer_wall_wall wall_7_catalog 7%Z _ wall Hrun).
Defined.

Lemma WallSpec_init_keeps_registered_witness :
  markers_registered ∅ /\
  markers_registered (WallSpec_init 200 210 90 105 wall_7_markers [] ∅).2.
Proof.
  assert (Hempty : markers_registered ∅).
  { intros k ws Hk. rewrite lookup_empty in Hk. discriminate. }
  split; [exact Hempty|].
  exact (WallSpec_init_keeps_registered 200 210 90 105 wall_7_markers [] ∅ Hempty).
Defined.

Lemma infer_wall_exceptions_witness :
  markers_registered bare_catalog /\
  infer_wall bare_catalog 9 [(9%Z, marker_7_seen)] = Raise IndexError /\
  IndexError = IndexError.
Proof.
  assert (Hreg : markers_registered bare_catalog).
  { intros k ws Hk. unfold bare_catalog in Hk.
    apply lookup_insert_Some in Hk as [[<- <-]|[_ Hk]].
    - exists (1%Z, []). apply lookup_singleton_eq.
    - rewrite lookup_empty in Hk. discriminate. }
  assert (Hrun : infer_wall bare_catalog 9 [(9%Z, marker_7_seen)]
                 = Raise IndexError).
  { simpl. unfold bare_catalog. rewrite lookup_insert_eq. simpl.
    unfold bare_markers. rewrite lookup_singleton_eq. reflexivity. }
  split; [exact Hreg|]. split; [exact Hrun|].
  exact (infer_wall_exceptions bare_catalog 9%Z _ IndexError Hreg Hrun).
Defined.

Lemma generate_walls_result_witness :
  generate_walls_from_markers wall_7_catalog scene ∅
    = (Ok tt, (generate_walls_from_markers wall_7_catalog scene ∅).2) /\
  match group_of wall_7_catalog 7 (landmarks scene) with
  | [] =>
      (generate_walls_from_markers wall_7_catalog scene ∅).2 !! (inl 7%Z : key)
      = (∅ : Objects) !! (inl 7%Z : key)
  | first :: _ =>
      exists wall,
        infer_wall wall_7_catalog 7 [first] = Ok (PyObj wall) /\
        (generate_walls_from_markers wall_7_catalog scene ∅).2 !! (inl 7%Z : key)
          = Some (PyObj wall) /\
        WorldObject.id wall = IdInt 7
  end.
Proof.
  assert (Hrun : generate_walls_from_markers wall_7_catalog scene ∅
                 = (Ok tt, (generate_walls_from_markers wall_7_catalog scene ∅).2)).
  { apply pair_of_outcome, generate_walls_total, wall_7_catalog_offsets. }
  split; [exact Hrun|].
  exact (generate_walls_result wall_7_catalog scene ∅ _ 7%Z Hrun).
Defined.

Lemma generate_walls_succeeds_witness :
  offsets_present wall_7_catalog /\
  (generate_walls_from_markers wall_7_catalog scene map_with_cube_3).1 = Ok tt.
Proof.
  split; [exact wall_7_catalog_offsets|].
  exact (generate_walls_succeeds wall_7_catalog scene map_with_cube_3
           wall_7_catalog_offsets).
Defined.

Lemma WallSpec_init_keeps_offsets_witness :
  offsets_present ∅ /\
  (forall k side coords,
      wall_7_markers !! k = Some (side, coords) -> coords <> []) /\
  offsets_present (WallSpec_init 200 210 90 105 wall_7_markers [] ∅).2.
Proof.
  assert (Hempty : offsets_present ∅).
  { intros k ws Hk. rewrite lookup_empty in Hk. discriminate. }
  assert (Hcoords : forall k side coords,
    wall_7_markers !! k = Some (side, coords) -> coords <> []).
  { intros k side coords Hk. unfold wall_7_markers in Hk.
    apply lookup_singleton_Some in Hk as [_ [= _ <-]]. discriminate. }
  split; [exact Hempty|]. split; [exact Hcoords|].
  exact (WallSpec_init_keeps_offsets 200 210 90 105 wall_7_markers [] ∅
           Hempty Hcoords).
Defined.

Lemma update_map_succeeds_witness :
  offsets_present wall_7_catalog /\
  (forall h, (∅ : Objects) !! (inr h : key) <> Some PyNone) /\
  (update_map wall_7_catalog gallery ∅).1 = Ok tt.
Proof.
  split; [exact wall_7_catalog_offsets|]. split; [exact empty_map_no_None|].
  exact (update_map_succeeds (ops := same_origin_ops)
           wall_7_catalog gallery ∅ wall_7_catalog_offsets empty_map_no_None).
Defined.
